(** * A tick-driven behavior engine: elements, sequences and the executor

    Shallow embedding of [types.hpp], [element.hpp], [executor.hpp] and
    [main.cpp].

    - A C++ [double] is a primitive binary64 [float]; arithmetic and
      comparisons are the IEEE 754 ones.
    - A [steady_clock::time_point] is its 64-bit signed count of clock
      ticks (nanoseconds) since the clock's epoch, as an integer; the one
      operation on it, the difference of two time points, wraps around to
      64 bits.
    - Objects held by reference live in a store indexed by references; a
      sequence keeps the vector of references, never a copy of an object.
    - Everything a method does to its collaborators is appended to a trace:
      messenger notifications, reflex mask activations and releases, and
      one record per call made to a child element or to a leaf hook, with
      what happened inside that call nested in the record.
    - Undefined behaviour (using the iterator the constructor leaves
      behind) is [None]. *)

From Stdlib Require Import ZArith List String Bool Floats Lia.
Import ListNotations.

Set Implicit Arguments.

(* 0.1 is read as the closest binary64 value, as the C++ literal is. *)
Set Warnings "-inexact-float".

(* ===================================================================== *)
(** * types.hpp                                                           *)
(* ===================================================================== *)

(** [steady_clock::time_point]: the count of nanoseconds since the
    epoch, which the clock keeps in a 64-bit signed integer. *)
Definition time_point := Z.
Bind Scope Z_scope with time_point.

(** [steady_clock::duration]: a 64-bit signed count of nanoseconds. *)
Definition duration := Z.
Bind Scope Z_scope with duration.

(** The value a 64-bit signed integer holds after an operation whose
    exact result is [z]: [z] itself when it is between -2^63 and 2^63 - 1,
    and otherwise [z] brought into that range by a multiple of 2^64, as
    the machine subtraction leaves it. *)
Definition int64_wrap (z : Z) : Z :=
  ((z + 2 ^ 63) mod 2 ^ 64 - 2 ^ 63)%Z.

(** [a - b] on time points: the counts are subtracted in 64 bits.  For
    two stamps less than 2^63 ns (about 292 years) apart this is the time
    from [b] to [a]; a difference that does not fit overflows, which the
    language leaves undefined, and the model takes what the machine
    computes. *)
Definition time_point_sub (a b : time_point) : duration :=
  int64_wrap (a - b).

Record SenseInfo := mkSenseInfo {
  measured_velocity : float;
  measured_x : float;
  is_flinching : bool;
  is_knee_jerking : bool;
  ts : time_point
}.

(** [SenseInfo sense;] every member value-initialised, [ts] at the epoch. *)
Definition SenseInfo_default : SenseInfo :=
  mkSenseInfo 0%float 0%float false false 0%Z.

Definition set_ts (t : time_point) (s : SenseInfo) : SenseInfo :=
  mkSenseInfo (measured_velocity s) (measured_x s)
              (is_flinching s) (is_knee_jerking s) t.

Definition set_measured_x (x : float) (s : SenseInfo) : SenseInfo :=
  mkSenseInfo (measured_velocity s) x
              (is_flinching s) (is_knee_jerking s) (ts s).

Definition set_measured_velocity (v : float) (s : SenseInfo) : SenseInfo :=
  mkSenseInfo v (measured_x s)
              (is_flinching s) (is_knee_jerking s) (ts s).

Record ActuateCmd := mkActuateCmd { velocity : float }.

Inductive Return := Running | Success | Fail.

Definition Return_eqb (a b : Return) : bool :=
  match a, b with
  | Running, Running | Success, Success | Fail, Fail => true
  | _, _ => false
  end.

Record Outcome := mkOutcome { value : Return; actuate : ActuateCmd }.

(** [Outcome() = default], with [value{Return::Fail}] and [actuate{}]. *)
Definition Outcome_default : Outcome := mkOutcome Fail (mkActuateCmd 0%float).

Definition set_value (r : Return) (o : Outcome) : Outcome :=
  mkOutcome r (actuate o).

Definition set_actuate (a : ActuateCmd) (o : Outcome) : Outcome :=
  mkOutcome (value o) a.

(** [const char *name{nullptr}]: [None] is the null pointer. *)
Record ElementMeta := mkElementMeta { name : option string }.

Definition ElementMeta_default : ElementMeta := mkElementMeta None.

Inductive MessengerSvc : Set := mkMessengerSvc.
Inductive ReactionSvc : Set := mkReactionSvc.

Record Services : Set := mkServices {
  messenger : MessengerSvc;
  reaction_svc : ReactionSvc
}.

Definition Services_default : Services := mkServices mkMessengerSvc mkReactionSvc.

Inductive ReactionDef :=
| ReactionDef_REQUIRED
| ReactionDef_DISABLED
| ReactionDef_ENABLED.

(** The enumerator values. *)
Definition ReactionDef_value (r : ReactionDef) : Z :=
  match r with
  | ReactionDef_REQUIRED => -1
  | ReactionDef_DISABLED => 0
  | ReactionDef_ENABLED => 1
  end.

(* ===================================================================== *)
(** * The trace                                                           *)
(* ===================================================================== *)

(** A message is a concatenation of string literals and of doubles
    rendered by [std::to_string]; the rendering is left symbolic. *)
Inductive Piece :=
| Lit (s : string)
| ToString (d : float).

Definition text (s : string) : list Piece := [Lit s].

Inductive Method :=
| Initialize
| DataInitialize (s : SenseInfo)
| Tick (s : SenseInfo) (o : Outcome)
| Finalize.

Inductive Callee :=
| Root
| Child (pos : nat)
| Hook.

#[local] Unset Elimination Schemes.
Inductive Event :=
| Notify (source : option string) (msg : list Piece)
| Activate (mask : Z)
| Release (mask : Z)
| Call (callee : Callee) (m : Method) (inner : list Event).
#[local] Set Elimination Schemes.

(** The calls recorded at the top level of a trace, in order. *)
Fixpoint calls (tr : list Event) : list (Callee * Method) :=
  match tr with
  | [] => []
  | Call c m _ :: tr' => (c, m) :: calls tr'
  | _ :: tr' => calls tr'
  end.

(** The reflex mask operations at the top level of a trace, in order. *)
Fixpoint mask_ops (tr : list Event) : list (bool * Z) :=
  match tr with
  | [] => []
  | Activate m :: tr' => (true, m) :: mask_ops tr'
  | Release m :: tr' => (false, m) :: mask_ops tr'
  | _ :: tr' => mask_ops tr'
  end.

(* ===================================================================== *)
(** * element.hpp                                                         *)
(* ===================================================================== *)

Module BehaviorElement.

  (** The abstract base class.  A method returns the value, the object
      after the call and the trace of the call; [None] is undefined
      behaviour. *)
Class t (T : Type) := {
    initialize : Services -> T -> option (ElementMeta * T * list Event);
    tick : SenseInfo -> T -> option (Outcome * T * list Event);
    finalize : T -> option (T * list Event)
  }.

End BehaviorElement.

Module MotionElement.

  (** What [Derived] supplies to [MotionElement<Derived>].  The three
      [static_assert]s of [initialize] are the three proof fields: a
      [Derived] that leaves a trait at its [MotionElement] default does not
      compile. *)
Class Derived (D : Type) := {
    NAME : option string;
    KNEE_JERK_REACTION : ReactionDef;
    FLINCH_REACTION : ReactionDef;
    motion_element_initialize : D -> ElementMeta * D * list Event;
    motion_element_finalize : D -> D * list Event;
    motion_element_data_initialize : D -> SenseInfo -> D * list Event;
    motion_element_tick : D -> SenseInfo -> Outcome * D * list Event;
    NAME_specified : NAME <> None;
    FLINCH_REACTION_specified : FLINCH_REACTION <> ReactionDef_REQUIRED;
    KNEE_JERK_REACTION_specified : KNEE_JERK_REACTION <> ReactionDef_REQUIRED
  }.

  (** The overridable static methods as [MotionElement] defines them. *)
Definition default_motion_element_initialize {D : Type}
      (NAME : option string) (me : D) : ElementMeta * D * list Event :=
    (mkElementMeta NAME, me, []).

Definition default_motion_element_finalize {D : Type} (me : D)
      : D * list Event :=
    (me, []).

Definition default_motion_element_data_initialize {D : Type} (me : D)
      (_ : SenseInfo) : D * list Event :=
    (me, []).

  (** The object: the members of the base class next to those of
      [Derived]. *)
Record obj (D : Type) := mk {
    derived : D;
    m_services : Services;
    m_first_tick : bool
  }.

  (** A freshly constructed object: [m_services{}], [m_first_tick{true}]. *)
Definition construct {D : Type} (d : D) : obj D :=
    mk d Services_default true.

Section Adapter.
Context {D : Type} `{Derived D}.

    (** [KNEE_JERK_REACTION << 0 | FLINCH_REACTION << 1], converted to
        [uint32_t]. *)
Definition get_reaction_defs : Z :=
      (Z.lor (Z.shiftl (ReactionDef_value KNEE_JERK_REACTION) 0)
             (Z.shiftl (ReactionDef_value FLINCH_REACTION) 1)) mod 2 ^ 32.

Definition initialize (svc : Services) (me : obj D)
        : ElementMeta * obj D * list Event :=
      let me := mk (derived me) (m_services me) true in
      let me := mk (derived me) svc (m_first_tick me) in
      let activated := Activate get_reaction_defs in
      let '(meta, d, inner) := motion_element_initialize (derived me) in
      (meta, mk d (m_services me) (m_first_tick me),
       [activated; Call Hook Initialize inner]).

Definition tick (sense : SenseInfo) (me : obj D)
        : Outcome * obj D * list Event :=
      let '(me, tr) :=
        if m_first_tick me then
          let me := mk (derived me) (m_services me) false in
          let '(d, inner) := motion_element_data_initialize (derived me) sense in
          (mk d (m_services me) (m_first_tick me),
           [Call Hook (DataInitialize sense) inner])
        else (me, []) in
      let '(o, d, inner) := motion_element_tick (derived me) sense in
      (o, mk d (m_services me) (m_first_tick me),
       tr ++ [Call Hook (Tick sense o) inner]).

Definition finalize (me : obj D) : obj D * list Event :=
      let '(d, inner) := motion_element_finalize (derived me) in
      let me := mk d (m_services me) (m_first_tick me) in
      (me, [Call Hook Finalize inner; Release get_reaction_defs]).

#[global] Instance behavior : BehaviorElement.t (obj D) := {
      BehaviorElement.initialize svc me := Some (initialize svc me);
      BehaviorElement.tick sense me := Some (tick sense me);
      BehaviorElement.finalize me := Some (finalize me)
    }.

End Adapter.

End MotionElement.

Module SequenceElement.

  (** A [std::reference_wrapper<BehaviorElement>] is the index of the
      object it refers to in the store. *)
Definition ref := nat.

Definition Elements := list ref.

  (** An [Elements::const_iterator].  [At i] is [m_elements.begin() + i],
      so [At (length m_elements)] is [m_elements.end()].  [Foreign] is an
      iterator of another vector: the constructor sets [m_iter] to
      [el.begin()], the beginning of its argument. *)
Inductive const_iterator :=
  | Foreign
  | At (i : nat).

Record obj := mk {
    m_svcs : Services;
    m_elements : Elements;
    m_iter : const_iterator;
    m_new_element : bool;
    m_meta : ElementMeta
  }.

Definition set_m_svcs (v : Services) (me : obj) : obj :=
    mk v (m_elements me) (m_iter me) (m_new_element me) (m_meta me).
Definition set_m_iter (v : const_iterator) (me : obj) : obj :=
    mk (m_svcs me) (m_elements me) v (m_new_element me) (m_meta me).
Definition set_m_new_element (v : bool) (me : obj) : obj :=
    mk (m_svcs me) (m_elements me) (m_iter me) v (m_meta me).
Definition set_m_meta (v : ElementMeta) (me : obj) : obj :=
    mk (m_svcs me) (m_elements me) (m_iter me) (m_new_element me) v.

  (** [SequenceElement(const Elements &el) : m_elements(el), m_iter(el.begin())] *)
Definition construct (el : Elements) : obj :=
    mk Services_default el Foreign true ElementMeta_default.

Definition initialize (svc : Services) (me : obj) : ElementMeta * obj :=
    let me := set_m_svcs svc me in
    let me := set_m_iter (At 0) me in
    let me := set_m_new_element true me in
    (mkElementMeta (Some "Sequence"%string), me).

Definition finalize (me : obj) : obj := me.

Section Store.
Context {Obj : Type} `{BehaviorElement.t Obj}.

    (** The objects the references designate. *)
Definition Store := ref -> Obj.

Definition upd (h : Store) (r : ref) (x : Obj) : Store :=
      fun r' => if Nat.eqb r' r then x else h r'.

    (** The state a method of the sequence runs in: the sequence itself,
        the store its references point into, and the trace so far. *)
Record World := mkWorld {
      self : obj;
      store : Store;
      trace : list Event
    }.

    (** State and undefined behaviour. *)
Definition M (A : Type) := World -> option (A * World).

Definition ret {A : Type} (a : A) : M A := fun w => Some (a, w).

Definition bind {A B : Type} (m : M A) (k : A -> M B) : M B :=
      fun w => match m w with
               | Some (a, w') => k a w'
               | None => None
               end.

Definition undefined {A : Type} : M A := fun _ => None.

Definition get {A : Type} (f : obj -> A) : M A :=
      fun w => Some (f (self w), w).

Definition modify (f : obj -> obj) : M unit :=
      fun w => Some (tt, mkWorld (f (self w)) (store w) (trace w)).

Definition emit (e : Event) : M unit :=
      fun w => Some (tt, mkWorld (self w) (store w) (trace w ++ [e])).

    (** [m_svcs.messenger.notify(source, msg)] *)
Definition notify (source : option string) (msg : string) : M unit :=
      emit (Notify source (text msg)).

    (** [m_iter != m_elements.end()] *)
Definition iter_not_at_end : M bool :=
      bind (get (fun me => (m_iter me, m_elements me))) (fun '(it, el) =>
      match it with
      | At i => ret (negb (Nat.eqb i (List.length el)))
      | Foreign => undefined
      end).

    (** The position of [m_iter] and the reference [*m_iter]. *)
Definition deref : M (nat * ref) :=
      bind (get (fun me => (m_iter me, m_elements me))) (fun '(it, el) =>
      match it with
      | At i => match nth_error el i with
                | Some r => ret (i, r)
                | None => undefined
                end
      | Foreign => undefined
      end).

    (** [++m_iter] *)
Definition incr_iter : M unit :=
      bind (get m_iter) (fun it =>
      match it with
      | At i => modify (set_m_iter (At (S i)))
      | Foreign => undefined
      end).

    (** [m_iter->get().initialize(svc)] *)
Definition call_initialize (svc : Services) : M ElementMeta :=
      bind deref (fun '(i, r) w =>
      match BehaviorElement.initialize svc (store w r) with
      | Some (meta, x, inner) =>
          Some (meta, mkWorld (self w) (upd (store w) r x)
                              (trace w ++ [Call (Child i) Initialize inner]))
      | None => None
      end).

    (** [m_iter->get().tick(s)] *)
Definition call_tick (s : SenseInfo) : M Outcome :=
      bind deref (fun '(i, r) w =>
      match BehaviorElement.tick s (store w r) with
      | Some (o, x, inner) =>
          Some (o, mkWorld (self w) (upd (store w) r x)
                           (trace w ++ [Call (Child i) (Tick s o) inner]))
      | None => None
      end).

    (** [m_iter->get().finalize()] *)
Definition call_finalize : M unit :=
      bind deref (fun '(i, r) w =>
      match BehaviorElement.finalize (store w r) with
      | Some (x, inner) =>
          Some (tt, mkWorld (self w) (upd (store w) r x)
                            (trace w ++ [Call (Child i) Finalize inner]))
      | None => None
      end).

Notation "x <- m ;; k" := (bind m (fun x => k))
      (at level 61, m at next level, right associativity).
Notation "m ;; k" := (bind m (fun _ => k))
      (at level 61, right associativity).

Definition tick (s : SenseInfo) : M Outcome :=
      let o := Outcome_default in
      let o := set_value Running o in
      more <- iter_not_at_end ;;
      if more then
        new_element <- get m_new_element ;;
        (if new_element then
           svcs <- get m_svcs ;;
           meta <- call_initialize svcs ;;
           modify (set_m_meta meta) ;;
           notify (name meta) "initialize" ;;
           modify (set_m_new_element false)
         else ret tt) ;;
        meta <- get m_meta ;;
        notify (name meta) "tick" ;;
        cur_o <- call_tick s ;;
        if negb (Return_eqb (value cur_o) Running) then
          call_finalize ;;
          notify (name meta) "finalize" ;;
          (* go to the next element *)
          modify (set_m_new_element true) ;;
          incr_iter ;;
          more <- iter_not_at_end ;;
          if more then
            if Return_eqb (value cur_o) Fail then
              (* on failure we will end the sequence *)
              ret cur_o
            else
              (* on success this sequence element is still running *)
              let o := set_value Running o in
              let o := set_actuate (actuate cur_o) o in
              ret o
          else
            (* done with all elements: the output of the last element *)
            ret cur_o
        else
          ret cur_o
      else
        (* the sequence never had any elements *)
        ret (set_value Fail o).

    (** The sequence ticked once per sense input. *)
Fixpoint ticks (ss : list SenseInfo) : M (list Outcome) :=
      match ss with
      | [] => ret []
      | s :: ss' =>
          o <- tick s ;;
          os <- ticks ss' ;;
          ret (o :: os)
      end.

    (** The sequence together with the objects it refers to, as a
        [BehaviorElement]. *)
#[global] Instance behavior : BehaviorElement.t (obj * Store) := {
      BehaviorElement.initialize svc x :=
        let '(meta, me) := initialize svc (fst x) in
        Some (meta, (me, snd x), []);
      BehaviorElement.tick s x :=
        match tick s (mkWorld (fst x) (snd x) []) with
        | Some (o, w) => Some (o, (self w, store w), trace w)
        | None => None
        end;
      BehaviorElement.finalize x := Some ((finalize (fst x), snd x), [])
    }.

End Store.

End SequenceElement.

(* ===================================================================== *)
(** * executor.hpp                                                        *)
(* ===================================================================== *)

Module Executor.

  (** How a run of the loop ends.  The loop of the source has no bound;
      the model runs it for at most [fuel] iterations. *)
Inductive Result (A : Type) :=
  | Returned (a : A)
  | Undefined
  | OutOfFuel.
Arguments Returned {A} a.
Arguments Undefined {A}.
Arguments OutOfFuel {A}.

  (** [period.count()], converted to [double] by the multiplication. *)
Definition period_count : float := 100%float.

Section Run.
Context {T : Type} `{BehaviorElement.t T}.

    (** [now k] is what the [k]-th call of [steady_clock::now()] of the run
        returns, counting from 0. *)
Variable now : nat -> time_point.

    (** The locals of [run], the number of clock readings so far, and the
        trace. *)
Record Frame := mkFrame {
      element : T;
      out : Outcome;
      sense : SenseInfo;
      readings : nat;
      trace : list Event
    }.

    (** One execution of the body of the [do ... while]. *)
Definition body (meta : ElementMeta) (f : Frame) : option Frame :=
      let sense := set_ts (now (readings f)) (sense f) in
      let tr := trace f ++ [Notify (name meta) (text "tick")] in
      match BehaviorElement.tick sense (element f) with
      | Some (out, el, inner) =>
          let tr := tr ++ [Call Root (Tick sense out) inner] in
          (* simulate walking *)
          let sense :=
            set_measured_x
              (measured_x sense
               + velocity (actuate out) * period_count / 1000)%float sense in
          let sense := set_measured_velocity (velocity (actuate out)) sense in
          Some (mkFrame el out sense (S (readings f)) tr)
      | None => None
      end.

Fixpoint loop (fuel : nat) (meta : ElementMeta) (f : Frame)
        : Result Frame :=
      match fuel with
      | O => OutOfFuel
      | S fuel' =>
          match body meta f with
          | Some f' =>
              if Return_eqb (value (out f')) Running
              then loop fuel' meta f'
              else Returned f'
          | None => Undefined
          end
      end.

(** The frame the loop is entered with. *)
Definition entry (meta : ElementMeta) (el : T) (inner : list Event) : Frame :=
  mkFrame el Outcome_default (set_ts (now 0) SenseInfo_default) 1
          [Call Root Initialize inner; Notify (name meta) (text "initialize")].

Definition run (fuel : nat) (el : T) : Result Frame :=
      let svc := Services_default in
      let out0 := Outcome_default in
      let sense0 := SenseInfo_default in
      let sense0 := set_ts (now 0) sense0 in
      (* init the element *)
      match BehaviorElement.initialize svc el with
      | Some (meta, el, inner) =>
          let tr := [Call Root Initialize inner;
                     Notify (name meta) (text "initialize")] in
          (* run the element until done *)
          match loop fuel meta (mkFrame el out0 sense0 1 tr) with
          | Returned f =>
              (* finalize *)
              match BehaviorElement.finalize (element f) with
              | Some (el, inner) =>
                  Returned
                    (mkFrame el (out f) (sense f) (readings f)
                       (trace f ++ [Call Root Finalize inner;
                                    Notify (name meta) (text "finalize")]))
              | None => Undefined
              end
          | Undefined => Undefined
          | OutOfFuel => OutOfFuel
          end
      | None => Undefined
      end.

End Run.

End Executor.

(* ===================================================================== *)
(** * main.cpp                                                            *)
(* ===================================================================== *)

Module Stop.

  (** [Stop] has no data member of its own. *)
Inductive t : Set := mk.

Definition NAME : option string := Some "Stop"%string.

  (** [std::numeric_limits<double>::epsilon()] *)
Definition epsilon : float := 0x1p-52%float.

Definition motion_element_tick (me : t) (i : SenseInfo)
      : Outcome * t * list Event :=
    let out := Outcome_default in
    let is_zero := (abs (measured_velocity i) <=? epsilon)%float in
    let out := set_value (if is_zero then Success else Running) out in
    let out := set_actuate (mkActuateCmd 0%float) out in
    (out, me, []).

#[global, refine] Instance derived : MotionElement.Derived t := {
    MotionElement.NAME := NAME;
    MotionElement.KNEE_JERK_REACTION := ReactionDef_ENABLED;
    MotionElement.FLINCH_REACTION := ReactionDef_ENABLED;
    MotionElement.motion_element_initialize :=
      MotionElement.default_motion_element_initialize NAME;
    MotionElement.motion_element_finalize :=
      MotionElement.default_motion_element_finalize;
    MotionElement.motion_element_data_initialize :=
      MotionElement.default_motion_element_data_initialize;
    MotionElement.motion_element_tick := motion_element_tick
  }.
Proof. all: discriminate. Defined.

End Stop.

Module WalkToPosition.

Record t := mk {
    goal_x : float;
    init_ts : time_point
  }.

  (** [WalkToPosition(double goal) : goal_x(goal) {}]; [init_ts] is left at
      the epoch. *)
Definition construct (goal : float) : t := mk goal 0%Z.

Definition NAME : option string := Some "WalkToPosition"%string.

Definition motion_element_data_initialize (me : t) (s : SenseInfo)
      : t * list Event :=
    (mk (goal_x me) (ts s), []).

Definition MY_VELO : float := 1%float.
Definition GOAL_THRESHOLD : float := 0.1%float.
  (** [milliseconds{60000}] in clock ticks. *)
Definition TIMEOUT : Z := 60000 * 1000000.

Definition motion_element_tick (me : t) (s : SenseInfo)
      : Outcome * t * list Event :=
    let o := Outcome_default in
    let o := set_actuate (mkActuateCmd MY_VELO) o in
    let o := set_value Running o in
    let dist_x := (goal_x me - measured_x s)%float in
    let o :=
      set_actuate
        (mkActuateCmd (if (0 <=? dist_x)%float then MY_VELO else (- MY_VELO)%float))
        o in
    if (abs dist_x <? GOAL_THRESHOLD)%float then
      (* we reached the target successfully *)
      (set_value Success o, me, [Notify NAME (text "goal reached")])
    else if (time_point_sub (ts s) (init_ts me) >? TIMEOUT)%Z then
      (* fail on timeout *)
      (set_value Fail o, me, [Notify NAME (text "timeout")])
    else if is_knee_jerking s then
      (set_actuate (mkActuateCmd 0%float) o, me, [])
    else
      (o, me,
       [Notify NAME
          [Lit "velocity="; ToString (velocity (actuate o));
           Lit " pos="; ToString (measured_x s);
           Lit " dist="; ToString dist_x;
           Lit " goal="; ToString (goal_x me)]]).

#[global, refine] Instance derived : MotionElement.Derived t := {
    MotionElement.NAME := NAME;
    MotionElement.KNEE_JERK_REACTION := ReactionDef_ENABLED;
    MotionElement.FLINCH_REACTION := ReactionDef_DISABLED;
    MotionElement.motion_element_initialize :=
      MotionElement.default_motion_element_initialize NAME;
    MotionElement.motion_element_finalize :=
      MotionElement.default_motion_element_finalize;
    MotionElement.motion_element_data_initialize :=
      motion_element_data_initialize;
    MotionElement.motion_element_tick := motion_element_tick
  }.
Proof. all: discriminate. Defined.

End WalkToPosition.

Module Main.

  (** The dynamic types of the objects [main] creates. *)
Inductive Leaf :=
  | AStop (x : MotionElement.obj Stop.t)
  | AWalkToPosition (x : MotionElement.obj WalkToPosition.t).

  (** Virtual dispatch. *)
#[global] Instance behavior : BehaviorElement.t Leaf := {
    BehaviorElement.initialize svc x :=
      match x with
      | AStop y =>
          let '(meta, y, tr) := MotionElement.initialize svc y in
          Some (meta, AStop y, tr)
      | AWalkToPosition y =>
          let '(meta, y, tr) := MotionElement.initialize svc y in
          Some (meta, AWalkToPosition y, tr)
      end;
    BehaviorElement.tick s x :=
      match x with
      | AStop y =>
          let '(o, y, tr) := MotionElement.tick s y in
          Some (o, AStop y, tr)
      | AWalkToPosition y =>
          let '(o, y, tr) := MotionElement.tick s y in
          Some (o, AWalkToPosition y, tr)
      end;
    BehaviorElement.finalize x :=
      match x with
      | AStop y =>
          let '(y, tr) := MotionElement.finalize y in
          Some (AStop y, tr)
      | AWalkToPosition y =>
          let '(y, tr) := MotionElement.finalize y in
          Some (AWalkToPosition y, tr)
      end
  }.

  (** [Stop stop; WalkToPosition walk(4);] *)
Definition stop : SequenceElement.ref := 0.
Definition walk : SequenceElement.ref := 1.

Definition objects (goal : float) : SequenceElement.Store (Obj := Leaf) :=
    fun r =>
      if Nat.eqb r walk
      then AWalkToPosition (MotionElement.construct (WalkToPosition.construct goal))
      else AStop (MotionElement.construct Stop.mk).

  (** [SequenceElement sequence({std::ref(walk), std::ref(stop)});] *)
Definition sequence : SequenceElement.obj :=
    SequenceElement.construct [walk; stop].

  (** [Executor::run(sequence)], run to completion by [result.wait()]. *)
Definition main (now : nat -> time_point) (fuel : nat) :=
    Executor.run now fuel (sequence, objects 4%float).

End Main.

(* ===================================================================== *)
(** * Life cycles of the children of a sequence                           *)
(* ===================================================================== *)

(** What the children of a sequence do when each is taken through one
    [initialize], [tick]..., [finalize] cycle on its own, in the order of
    the vector, on the store the sequence refers into.  The theorems on
    [SequenceElement.tick] compare the sequence with these. *)

Section Cycles.
Context {Obj : Type} `{BehaviorElement.t Obj}.

Import SequenceElement.

(** The object behind [r] ticked once per sense input. *)
Fixpoint child_ticks (r : ref) (ss : list SenseInfo) (h : Store)
    : option (list Outcome * Store) :=
  match ss with
  | [] => Some ([], h)
  | s :: ss' =>
      match BehaviorElement.tick s (h r) with
      | Some (o, x, _) =>
          match child_ticks r ss' (upd h r x) with
          | Some (os, h') => Some (o :: os, h')
          | None => None
          end
      | None => None
      end
  end.

(** One cycle of the object behind [r]. *)
Definition child_cycle (svc : Services) (r : ref) (ss : list SenseInfo)
    (h : Store) : option (list Outcome * Store) :=
  match BehaviorElement.initialize svc (h r) with
  | Some (_, x, _) =>
      match child_ticks r ss (upd h r x) with
      | Some (os, h1) =>
          match BehaviorElement.finalize (h1 r) with
          | Some (x', _) => Some (os, upd h1 r x')
          | None => None
          end
      | None => None
      end
  | None => None
  end.

(** One cycle per reference, each on its own share of the inputs. *)
Fixpoint children_cycles (svc : Services) (rs : list ref)
    (segs : list (list SenseInfo)) (h : Store)
    : option (list (list Outcome) * Store) :=
  match rs, segs with
  | [], [] => Some ([], h)
  | r :: rs', seg :: segs' =>
      match child_cycle svc r seg h with
      | Some (os, h1) =>
          match children_cycles svc rs' segs' h1 with
          | Some (oss, h2) => Some (os :: oss, h2)
          | None => None
          end
      | None => None
      end
  | _, _ => None
  end.

End Cycles.

(** The outcomes are [Running] up to the last one, which is [r]. *)
Fixpoint ends_with (r : Return) (os : list Outcome) : bool :=
  match os with
  | [] => false
  | o :: os' =>
      match os' with
      | [] => Return_eqb (value o) r
      | _ :: _ => Return_eqb (value o) Running && ends_with r os'
      end
  end.

(** The calls a sequence makes for one cycle of the child at [pos]. *)
Definition cycle_calls (pos : nat) (ss : list SenseInfo) (os : list Outcome)
    : list (Callee * Method) :=
  (Child pos, Initialize)
  :: map (fun so => (Child pos, Tick (fst so) (snd so))) (combine ss os)
  ++ [(Child pos, Finalize)].

(** The calls for the cycles of the children from [pos] on. *)
Fixpoint cycles_calls (pos : nat) (segs : list (list SenseInfo))
    (oss : list (list Outcome)) : list (Callee * Method) :=
  match segs, oss with
  | seg :: segs', os :: oss' =>
      cycle_calls pos seg os ++ cycles_calls (S pos) segs' oss'
  | _, _ => []
  end.

(** The sequence right after [initialize]. *)
Definition started {Obj : Type} (svc : Services) (el : SequenceElement.Elements)
    (h : SequenceElement.Store (Obj := Obj)) : SequenceElement.World :=
  SequenceElement.mkWorld
    (snd (SequenceElement.initialize svc (SequenceElement.construct el))) h [].

(** What the sequence reports on the tick the child at position [i] ends
    with [o]. *)
Definition forwarded (el : SequenceElement.Elements) (i : nat) (o : Outcome)
    : Outcome :=
  if Nat.eqb (S i) (List.length el) then o
  else if Return_eqb (value o) Fail then o
  else mkOutcome Running (actuate o).

(** The outcomes the sequence reports over one cycle of the child at [i]:
    the child's own, the last one forwarded. *)
Fixpoint forward_last (el : SequenceElement.Elements) (i : nat)
    (os : list Outcome) : list Outcome :=
  match os with
  | [] => []
  | o :: os' =>
      match os' with
      | [] => [forwarded el i o]
      | _ :: _ => o :: forward_last el i os'
      end
  end.

(** The same over the cycles of the children from [i] on. *)
Fixpoint sequence_outcomes (el : SequenceElement.Elements) (i : nat)
    (oss : list (list Outcome)) : list Outcome :=
  match oss with
  | [] => []
  | os :: oss' => forward_last el i os ++ sequence_outcomes el (S i) oss'
  end.

(** Every cycle ends with [Success], except that the last one ends with
    [r]. *)
Fixpoint cycles_end (r : Return) (oss : list (list Outcome)) : bool :=
  match oss with
  | [] => false
  | os :: oss' =>
      match oss' with
      | [] => ends_with r os
      | _ :: _ => ends_with Success os && cycles_end r oss'
      end
  end.

(* ===================================================================== *)
(** * Life cycles of a leaf                                               *)
(* ===================================================================== *)

Section LeafCycles.
Context {D : Type} `{MotionElement.Derived D}.

(** A leaf ticked once per sense input. *)
Fixpoint leaf_ticks (ss : list SenseInfo) (me : MotionElement.obj D)
    : list Outcome * MotionElement.obj D * list Event :=
  match ss with
  | [] => ([], me, [])
  | s :: ss' =>
      let '(o, me, tr) := MotionElement.tick s me in
      let '(os, me, tr') := leaf_ticks ss' me in
      (o :: os, me, tr ++ tr')
  end.

(** One [initialize], [tick]..., [finalize] cycle of a leaf. *)
Definition leaf_cycle (svc : Services) (ss : list SenseInfo)
    (me : MotionElement.obj D)
    : list Outcome * MotionElement.obj D * list Event :=
  let '(_, me, tr0) := MotionElement.initialize svc me in
  let '(os, me, tr1) := leaf_ticks ss me in
  let '(me, tr2) := MotionElement.finalize me in
  (os, me, tr0 ++ tr1 ++ tr2).

(** Cycle after cycle on the same object. *)
Fixpoint leaf_cycles (svc : Services) (css : list (list SenseInfo))
    (me : MotionElement.obj D)
    : list (list Outcome) * MotionElement.obj D * list Event :=
  match css with
  | [] => ([], me, [])
  | ss :: css' =>
      let '(os, me, tr) := leaf_cycle svc ss me in
      let '(oss, me, tr') := leaf_cycles svc css' me in
      (os :: oss, me, tr ++ tr')
  end.

End LeafCycles.




(** The flag of a reaction in the mask: set when the reaction is enabled. *)
Definition enabled (r : ReactionDef) : bool :=
  match r with
  | ReactionDef_ENABLED => true
  | _ => false
  end.

(** What the decision function of [WalkToPosition] returns. *)
Definition walk_outcome (me : WalkToPosition.t) (s : SenseInfo) : Outcome :=
  fst (fst (WalkToPosition.motion_element_tick me s)).

(** The ticks the executor has made on its element, in order: the sense
    input passed and the outcome returned. *)
Fixpoint root_ticks (tr : list Event) : list (SenseInfo * Outcome) :=
  match tr with
  | [] => []
  | Call Root (Tick s o) _ :: tr' => (s, o) :: root_ticks tr'
  | _ :: tr' => root_ticks tr'
  end.

(** What the element did inside these ticks. *)
Fixpoint inside_root_ticks (tr : list Event) : list Event :=
  match tr with
  | [] => []
  | Call Root (Tick _ _) inner :: tr' => inner ++ inside_root_ticks tr'
  | _ :: tr' => inside_root_ticks tr'
  end.

(** A clock read every 100 ms, as the [sleep_for] of the loop paces it. *)
Definition every_100ms (k : nat) : time_point := (Z.of_nat k * 100000000)%Z.

(** The outcomes of one cycle of a [WalkToPosition] with goal [goal] on
    the inputs [ss], with the time stamp of the first input as the start
    of the timeout. *)
Definition walk_cycle_outcomes (goal : float) (ss : list SenseInfo)
    : list Outcome :=
  match ss with
  | [] => []
  | s1 :: _ => map (walk_outcome (WalkToPosition.mk goal (ts s1))) ss
  end.

(** The sense inputs the loop of the executor feeds, from the sense data
    [s0] and clock reading number [k] on: each input is the data at hand
    stamped with the next clock reading, and the data for the next
    iteration is that input moved by the command returned for it. *)
Fixpoint fed (now : nat -> time_point) (s0 : SenseInfo) (k : nat)
    (ticked : list (SenseInfo * Outcome)) : Prop :=
  match ticked with
  | [] => True
  | (s, o) :: ticked' =>
      s = set_ts (now k) s0
      /\ fed now
           (set_measured_velocity (velocity (actuate o))
              (set_measured_x
                 (measured_x s + velocity (actuate o) * 100 / 1000)%float s))
           (S k) ticked'
  end.

(** What the element [el] answers to the inputs it is ticked with, one
    after the other: for each tick the input, the outcome returned, the
    element after the tick and what happened inside it. *)
Fixpoint answers {T : Type} `{BehaviorElement.t T} (el : T)
    (steps : list (SenseInfo * Outcome * T * list Event)) : Prop :=
  match steps with
  | [] => True
  | (s, o, el', inner) :: steps' =>
      BehaviorElement.tick s el = Some (o, el', inner) /\ answers el' steps'
  end.

(** The input and the outcome of a step. *)
Definition step_io {T : Type} (st : SenseInfo * Outcome * T * list Event)
    : SenseInfo * Outcome :=
  let '(s, o, _, _) := st in (s, o).

(** What one iteration of the loop of the executor adds to its trace. *)
Definition step_events {T : Type} (meta : ElementMeta)
    (st : SenseInfo * Outcome * T * list Event) : list Event :=
  let '(s, o, _, inner) := st in
  [Notify (name meta) (text "tick"); Call Root (Tick s o) inner].

(** An element that is not in the repository, for examples: a class
    derived from [BehaviorElement] directly that answers every tick with
    the outcome it was built with. *)
Module Constant.

Definition t : Type := Outcome.

Definition behavior : BehaviorElement.t t := {|
    BehaviorElement.initialize :=
      fun _ me => Some (ElementMeta_default, me, []);
    BehaviorElement.tick := fun _ me => Some (me, me, []);
    BehaviorElement.finalize := fun me => Some (me, [])
  |}.

End Constant.

(** How a run of [main] ends on the clock [now]: with [Success] after 42
    ticks, no tick from 2 to 39 being late; or with [Fail] on the first
    tick [k] from 2 to 39 that is late, no call having reached a child
    other than the first.  A tick is late when more than the timeout has
    elapsed since clock reading 1, the one the first tick is stamped
    with; elapsed time is the difference of the two readings as the walk
    computes it, [time_point_sub]. *)
Definition main_verdict (now : nat -> time_point)
    (g : Executor.Frame (T := SequenceElement.obj
                              * SequenceElement.Store (Obj := Main.Leaf)))
    : Prop :=
  (Executor.out g = mkOutcome Success (mkActuateCmd 0%float)
   /\ Executor.readings g = 43
   /\ forall k, 2 <= k <= 39 -> (time_point_sub (now k) (now 1%nat) <= WalkToPosition.TIMEOUT)%Z)
  \/ (Executor.out g = mkOutcome Fail (mkActuateCmd 1%float)
      /\ exists k,
           2 <= k <= 39
           /\ Executor.readings g = S k
           /\ (time_point_sub (now k) (now 1%nat) > WalkToPosition.TIMEOUT)%Z
           /\ (forall j, 2 <= j < k ->
                         (time_point_sub (now j) (now 1%nat) <= WalkToPosition.TIMEOUT)%Z)
           /\ Forall (fun cm => fst cm = Child 0)
                     (calls (inside_root_ticks (Executor.trace g)))).

(* ===================================================================== *)
(** * SequenceElement::tick, one tick at a time                           *)
(* ===================================================================== *)

Section SequenceTick.
Context {Obj : Type} `{BehaviorElement.t Obj}.

Import SequenceElement.

(** Unfold one tick down to the tests it makes. *)
Ltac step_tick :=
  cbv beta iota delta
    [tick bind ret undefined get modify emit notify iter_not_at_end deref
     incr_iter call_initialize call_tick call_finalize];
  cbn [self store trace fst snd m_svcs m_elements m_iter m_new_element m_meta
       set_m_svcs set_m_iter set_m_new_element set_m_meta].

Ltac crunch := cbn -[upd Nat.eqb nth_error List.length].

Ltac open_world w :=
  let me := fresh "me" in
  destruct w as [me ? ?]; destruct me; cbn [self store trace m_svcs m_elements
    m_iter m_new_element m_meta] in *; subst.

Lemma calls_app (a b : list Event) : calls (a ++ b) = calls a ++ calls b.
Proof.
  induction a as [|e a IH]; simpl; [reflexivity|].
  destruct e; simpl; rewrite IH; reflexivity.
Qed.

Lemma nth_error_not_end (A : Type) (l : list A) i r :
  nth_error l i = Some r -> Nat.eqb i (List.length l) = false.
Proof.
  intros Hnth. apply Nat.eqb_neq. intros ->.
  assert (E : nth_error l (List.length l) = None) by (apply nth_error_None; lia).
  congruence.
Qed.

(** With the iterator at the end, a tick touches nothing. *)
Lemma tick_at_end (s : SenseInfo) (w : World) :
  m_iter (self w) = At (List.length (m_elements (self w))) ->
  tick s w = Some (mkOutcome Fail (mkActuateCmd 0%float), w).
Proof.
  intros Hit. open_world w. step_tick.
  rewrite Nat.eqb_refl. reflexivity.
Qed.

(** The first tick of a child initializes it, then goes on as any other. *)
Lemma tick_new_element (s : SenseInfo) (w : World) i r meta x inner :
  m_iter (self w) = At i ->
  nth_error (m_elements (self w)) i = Some r ->
  m_new_element (self w) = true ->
  BehaviorElement.initialize (m_svcs (self w)) (store w r) = Some (meta, x, inner) ->
  tick s w =
  tick s (mkWorld (set_m_new_element false (set_m_meta meta (self w)))
                  (upd (store w) r x)
                  (trace w ++ [Call (Child i) Initialize inner;
                               Notify (name meta) (text "initialize")])).
Proof.
  intros Hit Hnth Hnew Hinit.
  pose proof (nth_error_not_end _ _ Hnth) as Hlt.
  open_world w. step_tick.
  repeat (progress (crunch; rewrite ?Hlt, ?Hnth, ?Hinit)).
  destruct (BehaviorElement.tick s (upd _ r x r)) as [[[o x0] inner0]|];
    repeat (progress (crunch; rewrite ?Hlt, ?Hnth)); [|reflexivity].
  destruct (Return_eqb (value o) Running);
    repeat (progress (crunch; rewrite ?Hlt, ?Hnth));
    [rewrite <- !app_assoc; reflexivity|].
  destruct (BehaviorElement.finalize (upd _ r x0 r)) as [[x1 inner1]|];
    crunch; [|reflexivity].
  destruct (Nat.eqb (S i) _); crunch;
    [rewrite <- !app_assoc; reflexivity|].
  destruct (Return_eqb (value o) Fail); rewrite <- !app_assoc; reflexivity.
Qed.

(** A tick on which the active child keeps running. *)
Lemma tick_running (s : SenseInfo) (w : World) i r o x inner :
  m_iter (self w) = At i ->
  nth_error (m_elements (self w)) i = Some r ->
  m_new_element (self w) = false ->
  BehaviorElement.tick s (store w r) = Some (o, x, inner) ->
  value o = Running ->
  tick s w =
  Some (o, mkWorld (self w) (upd (store w) r x)
                   (trace w ++ [Notify (name (m_meta (self w))) (text "tick");
                                Call (Child i) (Tick s o) inner])).
Proof.
  intros Hit Hnth Hnew Htick Hval.
  pose proof (nth_error_not_end _ _ Hnth) as Hlt.
  open_world w. step_tick.
  repeat (progress (crunch; rewrite ?Hlt, ?Hnth, ?Htick, ?Hval)).
  rewrite <- !app_assoc. reflexivity.
Qed.

(** A tick on which the active child ends. *)
Lemma tick_terminal (s : SenseInfo) (w : World) i r o x inner x' inner' :
  m_iter (self w) = At i ->
  nth_error (m_elements (self w)) i = Some r ->
  m_new_element (self w) = false ->
  BehaviorElement.tick s (store w r) = Some (o, x, inner) ->
  value o <> Running ->
  BehaviorElement.finalize (upd (store w) r x r) = Some (x', inner') ->
  tick s w =
  Some (forwarded (m_elements (self w)) i o,
        mkWorld (set_m_iter (At (S i)) (set_m_new_element true (self w)))
                (upd (upd (store w) r x) r x')
                (trace w ++ [Notify (name (m_meta (self w))) (text "tick");
                             Call (Child i) (Tick s o) inner;
                             Call (Child i) Finalize inner';
                             Notify (name (m_meta (self w))) (text "finalize")])).
Proof.
  intros Hit Hnth Hnew Htick Hval Hfin.
  pose proof (nth_error_not_end _ _ Hnth) as Hlt.
  assert (Hr : Return_eqb (value o) Running = false)
    by (destruct (value o); [congruence|reflexivity|reflexivity]).
  open_world w. step_tick.
  repeat (progress (crunch; rewrite ?Hlt, ?Hnth, ?Htick, ?Hr, ?Hfin)).
  unfold forwarded. rewrite <- !app_assoc. crunch.
  destruct (Nat.eqb (S i) _); crunch; [reflexivity|].
  destruct (Return_eqb (value o) Fail); reflexivity.
Qed.

Lemma ticks_cons (s : SenseInfo) (ss : list SenseInfo) (w : World) :
  ticks (s :: ss) w =
  match tick s w with
  | Some (o, w1) =>
      match ticks ss w1 with
      | Some (os, w2) => Some (o :: os, w2)
      | None => None
      end
  | None => None
  end.
Proof. reflexivity. Qed.

Lemma ticks_app (a b : list SenseInfo) (w : World) :
  ticks (a ++ b) w =
  match ticks a w with
  | Some (os, w1) =>
      match ticks b w1 with
      | Some (os', w2) => Some (os ++ os', w2)
      | None => None
      end
  | None => None
  end.
Proof.
  revert w. induction a as [|s a IH]; intros w.
  - cbn [app ticks]. unfold ret. destruct (ticks b w) as [[os' w2]|]; reflexivity.
  - cbn [app]. rewrite !ticks_cons. destruct (tick s w) as [[o w1]|]; [|reflexivity].
    rewrite IH. destruct (ticks a w1) as [[os w2]|]; [|reflexivity].
    destruct (ticks b w2) as [[os' w3]|]; reflexivity.
Qed.

Lemma child_ticks_length r ss (h : Store) os h' :
  child_ticks r ss h = Some (os, h') -> List.length os = List.length ss.
Proof.
  revert h os. induction ss as [|s ss IH]; intros h os E; cbn in E.
  - injection E as <- _. reflexivity.
  - destruct (BehaviorElement.tick s (h r)) as [[[o x] inner]|]; [|discriminate].
    destruct (child_ticks r ss (upd h r x)) as [[os' h1]|] eqn:E'; [|discriminate].
    injection E as <- <-. cbn. f_equal. eapply IH; eassumption.
Qed.

(** An initialized child taken to the end of its cycle. *)
Lemma ticks_child_running t i r ss : forall (w : World) os h1 x' inner',
  m_iter (self w) = At i ->
  nth_error (m_elements (self w)) i = Some r ->
  m_new_element (self w) = false ->
  child_ticks r ss (store w) = Some (os, h1) ->
  ends_with t os = true ->
  t <> Running ->
  BehaviorElement.finalize (h1 r) = Some (x', inner') ->
  exists tr,
    ticks ss w =
    Some (forward_last (m_elements (self w)) i os,
          mkWorld (set_m_iter (At (S i)) (set_m_new_element true (self w)))
                  (upd h1 r x') (trace w ++ tr))
    /\ calls tr =
       map (fun so => (Child i, Tick (fst so) (snd so))) (combine ss os)
       ++ [(Child i, Finalize)].
Proof.
  induction ss as [|s ss IH]; intros w os h1 x' inner' Hit Hnth Hnew Hch Hend Ht Hfin;
    cbn in Hch.
  - injection Hch as <- _. discriminate.
  - destruct (BehaviorElement.tick s (store w r)) as [[[o x] inner]|] eqn:Htick;
      [|discriminate].
    destruct (child_ticks r ss (upd (store w) r x)) as [[os' h2]|] eqn:Hrest;
      [|discriminate].
    injection Hch as <- ->. rewrite ticks_cons.
    destruct os' as [|o' os'].
    + (* the child ends on this tick *)
      pose proof (child_ticks_length _ _ _ Hrest) as Hlen.
      destruct ss; [|discriminate]. cbn in Hrest. injection Hrest as <-.
      cbn in Hend.
      assert (Hv : value o <> Running).
      { intro E. rewrite E in Hend. destruct t; cbn in Hend; congruence. }
      rewrite (tick_terminal s w Hit Hnth Hnew Htick Hv Hfin).
      cbn [ticks]. unfold ret. eexists. split; [reflexivity|]. reflexivity.
    + (* the child keeps running *)
      cbn [ends_with] in Hend. apply andb_prop in Hend as [Hv Hend].
      assert (Hv' : value o = Running) by (destruct (value o); cbn in Hv; congruence).
      rewrite (tick_running s w Hit Hnth Hnew Htick Hv').
      destruct (IH (mkWorld (self w) (upd (store w) r x)
                     (trace w ++ [Notify (name (m_meta (self w))) (text "tick");
                                  Call (Child i) (Tick s o) inner]))
                   (o' :: os') h1 x' inner' Hit Hnth Hnew Hrest Hend Ht Hfin)
        as [tr [E Hcalls]].
      rewrite E. cbn [self store trace]. eexists. split.
      * rewrite <- app_assoc. reflexivity.
      * cbn. rewrite Hcalls. reflexivity.
Qed.

Lemma ends_with_nonempty t os : ends_with t os = true -> os <> [].
Proof. destruct os; [discriminate|congruence]. Qed.

(** One whole cycle of the child at [i], starting with its [initialize]. *)
Lemma ticks_cycle t i r ss (w : World) os h1 :
  m_iter (self w) = At i ->
  nth_error (m_elements (self w)) i = Some r ->
  m_new_element (self w) = true ->
  child_cycle (m_svcs (self w)) r ss (store w) = Some (os, h1) ->
  ends_with t os = true ->
  t <> Running ->
  exists meta tr,
    ticks ss w =
    Some (forward_last (m_elements (self w)) i os,
          mkWorld (mk (m_svcs (self w)) (m_elements (self w)) (At (S i)) true meta)
                  h1 (trace w ++ tr))
    /\ calls tr = cycle_calls i ss os.
Proof.
  intros Hit Hnth Hnew Hcyc Hend Ht. unfold child_cycle in Hcyc.
  destruct (BehaviorElement.initialize (m_svcs (self w)) (store w r))
    as [[[meta x] inner]|] eqn:Hinit; [|discriminate].
  destruct (child_ticks r ss (upd (store w) r x)) as [[os' h2]|] eqn:Hch;
    [|discriminate].
  destruct (BehaviorElement.finalize (h2 r)) as [[x' inner']|] eqn:Hfin;
    [|discriminate].
  injection Hcyc as -> <-.
  destruct ss as [|s ss].
  { cbn in Hch. injection Hch as <- _. discriminate. }
  rewrite ticks_cons, (tick_new_element s w Hit Hnth Hnew Hinit), <- ticks_cons.
  set (w1 := mkWorld _ _ _).
  destruct (@ticks_child_running t i r (s :: ss) w1 os h2 x' inner') as [tr [E Hc]];
    try assumption; try reflexivity.
  exists meta. eexists. split.
  - rewrite E. subst w1. cbn [self store trace]. rewrite <- app_assoc.
    destruct w as [[] ? ?]. reflexivity.
  - cbn [calls app]. unfold cycle_calls. rewrite Hc. reflexivity.
Qed.

Lemma children_cycles_nil svc rs segs (h : Store) h' :
  children_cycles svc rs segs h = Some ([], h') -> rs = [] /\ segs = [].
Proof.
  destruct rs as [|r rs], segs as [|seg segs]; cbn; try discriminate; [tauto|].
  destruct (child_cycle svc r seg h) as [[os h1]|]; [|discriminate].
  destruct (children_cycles svc rs segs h1) as [[oss h2]|]; discriminate.
Qed.

(** The cycles of several children in a row: all but the last end with
    [Success]. *)
Lemma ticks_cycles t rs : forall segs (w : World) oss h' done rest,
  m_elements (self w) = done ++ rs ++ rest ->
  m_iter (self w) = At (List.length done) ->
  m_new_element (self w) = true ->
  children_cycles (m_svcs (self w)) rs segs (store w) = Some (oss, h') ->
  cycles_end t oss = true ->
  t <> Running ->
  exists w' tr,
    ticks (List.concat segs) w =
      Some (sequence_outcomes (m_elements (self w)) (List.length done) oss, w')
    /\ m_svcs (self w') = m_svcs (self w)
    /\ m_elements (self w') = m_elements (self w)
    /\ m_iter (self w') = At (List.length done + List.length rs)
    /\ m_new_element (self w') = true
    /\ store w' = h'
    /\ trace w' = trace w ++ tr
    /\ calls tr = cycles_calls (List.length done) segs oss.
Proof.
  induction rs as [|r rs IH]; intros segs w oss h' done rest Hel Hit Hnew Hcyc Hend Ht.
  - destruct segs; cbn in Hcyc; [|discriminate]. injection Hcyc as <- _. discriminate.
  - destruct segs as [|seg segs]; cbn in Hcyc; [discriminate|].
    destruct (child_cycle (m_svcs (self w)) r seg (store w)) as [[os h1]|] eqn:Hone;
      [|discriminate].
    destruct (children_cycles (m_svcs (self w)) rs segs h1) as [[oss' h2]|] eqn:Hrest;
      [|discriminate].
    injection Hcyc as <- <-.
    assert (Hnth : nth_error (m_elements (self w)) (List.length done) = Some r).
    { rewrite Hel, nth_error_app2 by lia. rewrite Nat.sub_diag. reflexivity. }
    destruct oss' as [|os2 oss'].
    + (* the last cycle *)
      apply children_cycles_nil in Hrest as Hnil. destruct Hnil as [-> ->].
      cbn in Hrest. injection Hrest as ->. cbn [cycles_end] in Hend.
      destruct (ticks_cycle seg w Hit Hnth Hnew Hone Hend Ht) as [meta [tr [E Hc]]].
      cbn [List.concat sequence_outcomes cycles_calls]. rewrite !app_nil_r.
      eexists. exists tr. split; [exact E|]. cbn.
      repeat split; try reflexivity; [f_equal; lia | assumption].
    + (* a cycle that ends with Success, and the ones after it *)
      cbn [cycles_end] in Hend. apply andb_prop in Hend as [Hs Hend].
      destruct (ticks_cycle seg w Hit Hnth Hnew Hone Hs) as [meta [tr [E Hc]]];
        [discriminate|].
      set (w1 := mkWorld _ _ _) in E.
      destruct (IH segs w1 (os2 :: oss') h2 (done ++ [r]) rest) as [w' [tr' IH']];
        try assumption.
      { subst w1. cbn. rewrite Hel, <- app_assoc. reflexivity. }
      { subst w1. cbn. rewrite length_app. cbn. f_equal. lia. }
      { reflexivity. }
      destruct IH' as (E' & Hsv & Hels & Hit' & Hnew' & Hst & Htr & Hc').
      exists w', (tr ++ tr'). cbn [List.concat sequence_outcomes cycles_calls].
      rewrite ticks_app, E, E'. subst w1. cbn [self store trace m_svcs m_elements] in *.
      rewrite length_app in *. cbn [List.length] in *.
      replace (List.length done + 1) with (S (List.length done)) in * by lia.
      repeat split; try assumption.
      * rewrite Hit'. f_equal. lia.
      * rewrite Htr, app_assoc. reflexivity.
      * rewrite calls_app, Hc, Hc'. reflexivity.
Qed.

End SequenceTick.

(* ===================================================================== *)
(** * What the sequence reports over the cycles of its children           *)
(* ===================================================================== *)

Lemma forwarded_actuate el i o : actuate (forwarded el i o) = actuate o.
Proof.
  unfold forwarded. destruct (Nat.eqb _ _); [reflexivity|].
  destruct (Return_eqb _ _); reflexivity.
Qed.

Lemma forward_last_actuate el i os :
  map actuate (forward_last el i os) = map actuate os.
Proof.
  induction os as [|o os IH]; [reflexivity|].
  destruct os as [|o' os]; cbn [forward_last map].
  - rewrite forwarded_actuate. reflexivity.
  - f_equal. exact IH.
Qed.

Lemma sequence_outcomes_actuate el oss : forall i,
  map actuate (sequence_outcomes el i oss) = map actuate (List.concat oss).
Proof.
  induction oss as [|os oss IH]; intros i; [reflexivity|].
  cbn [sequence_outcomes List.concat]. rewrite !map_app, forward_last_actuate, IH.
  reflexivity.
Qed.

Lemma Return_eqb_eq a b : Return_eqb a b = true <-> a = b.
Proof. destruct a, b; cbn; split; congruence. Qed.

(** A cycle whose end the sequence forwards as it is. *)
Lemma forward_last_kept t el i os :
  ends_with t os = true ->
  t = Fail \/ S i = List.length el ->
  forward_last el i os = os.
Proof.
  intros Hend Hcase. induction os as [|o os IH]; [reflexivity|].
  destruct os as [|o' os]; cbn [forward_last].
  - cbn in Hend. apply Return_eqb_eq in Hend. unfold forwarded.
    destruct Hcase as [-> | ->].
    + destruct (Nat.eqb (S i) (List.length el)); [reflexivity|].
      rewrite Hend. reflexivity.
    + rewrite Nat.eqb_refl. reflexivity.
  - cbn [ends_with] in Hend. apply andb_prop in Hend as [_ Hend].
    f_equal. exact (IH Hend).
Qed.

(** A cycle that ends with [Success] before the last position is reported
    as [Running] throughout. *)
Lemma forward_last_masked el i os :
  ends_with Success os = true ->
  S i <> List.length el ->
  forallb (fun o => Return_eqb (value o) Running) (forward_last el i os) = true.
Proof.
  intros Hend Hne. induction os as [|o os IH]; [reflexivity|].
  destruct os as [|o' os]; cbn [forward_last forallb].
  - cbn in Hend. apply Return_eqb_eq in Hend. unfold forwarded.
    apply Nat.eqb_neq in Hne. rewrite Hne, Hend. reflexivity.
  - cbn [ends_with] in Hend. apply andb_prop in Hend as [Hv Hend].
    rewrite Hv. exact (IH Hend).
Qed.

Lemma ends_with_app t a b :
  forallb (fun o => Return_eqb (value o) Running) a = true ->
  ends_with t b = true ->
  ends_with t (a ++ b) = true.
Proof.
  intros Ha Hb. induction a as [|o a IH]; [exact Hb|].
  cbn [forallb] in Ha. apply andb_prop in Ha as [Ho Ha].
  specialize (IH Ha). cbn [app ends_with].
  destruct (a ++ b) eqn:E.
  - apply ends_with_nonempty in IH. congruence.
  - rewrite Ho. exact IH.
Qed.

Lemma sequence_outcomes_end t el oss : forall i,
  cycles_end t oss = true ->
  t = Fail \/ i + List.length oss = List.length el ->
  i + List.length oss <= List.length el ->
  ends_with t (sequence_outcomes el i oss) = true.
Proof.
  induction oss as [|os oss IH]; intros i Hend Hcase Hle; [discriminate|].
  destruct oss as [|os2 oss]; cbn [cycles_end] in Hend.
  - cbn [sequence_outcomes]. rewrite app_nil_r.
    rewrite (@forward_last_kept t el i os Hend); [exact Hend|].
    cbn in Hcase. destruct Hcase; [left; assumption | right; lia].
  - apply andb_prop in Hend as [Hs Hend].
    change (sequence_outcomes el i (os :: os2 :: oss))
      with (forward_last el i os ++ sequence_outcomes el (S i) (os2 :: oss)).
    cbn [List.length] in *. apply ends_with_app.
    + apply forward_last_masked; [exact Hs | lia].
    + apply IH; [exact Hend | destruct Hcase; [left; assumption | right; cbn; lia] | cbn; lia].
Qed.

Lemma last_behind (A : Type) (a b : list A) (d : A) :
  b <> [] -> last (a ++ b) d = last b d.
Proof.
  intros Hb. induction a as [|x a IH]; [reflexivity|].
  cbn [app]. change (last (x :: a ++ b) d)
    with (match a ++ b with [] => x | _ :: _ => last (a ++ b) d end).
  destruct (a ++ b) eqn:E; [|exact IH].
  apply app_eq_nil in E as [_ E]. congruence.
Qed.

Lemma forward_last_nonempty el i os : os <> [] -> forward_last el i os <> [].
Proof. destruct os as [|o [|o' os]]; cbn; congruence. Qed.

Lemma cycles_end_nonempty t el oss : forall i,
  cycles_end t oss = true ->
  sequence_outcomes el i oss <> [] /\ List.concat oss <> [].
Proof.
  induction oss as [|os oss IH]; intros i Hend; [discriminate|].
  destruct oss as [|os2 oss]; cbn [cycles_end] in Hend.
  - apply ends_with_nonempty in Hend. cbn. rewrite !app_nil_r.
    split; [apply forward_last_nonempty|]; assumption.
  - apply andb_prop in Hend as [_ Hend]. destruct (IH (S i) Hend) as [Ha Hb].
    cbn [sequence_outcomes List.concat].
    split; intros E; apply app_eq_nil in E as [_ E]; contradiction.
Qed.

(** The outcome the failing child ends with is reported as it is. *)
Lemma sequence_outcomes_last el oss : forall i,
  cycles_end Fail oss = true ->
  last (sequence_outcomes el i oss) Outcome_default
  = last (List.concat oss) Outcome_default.
Proof.
  induction oss as [|os oss IH]; intros i Hend; [discriminate|].
  destruct oss as [|os2 oss]; cbn [cycles_end] in Hend.
  - cbn. rewrite !app_nil_r.
    rewrite (@forward_last_kept Fail el i os Hend (or_introl eq_refl)). reflexivity.
  - apply andb_prop in Hend as [_ Hend].
    destruct (@cycles_end_nonempty Fail el (os2 :: oss) (S i) Hend) as [Ha Hb].
    change (sequence_outcomes el i (os :: os2 :: oss))
      with (forward_last el i os ++ sequence_outcomes el (S i) (os2 :: oss)).
    change (List.concat (os :: os2 :: oss)) with (os ++ List.concat (os2 :: oss)).
    rewrite !last_behind by assumption. exact (IH (S i) Hend).
Qed.

Lemma cycles_end_all oss :
  oss <> [] ->
  forallb (ends_with Success) oss = true ->
  cycles_end Success oss = true.
Proof.
  induction oss as [|os oss IH]; intros Hne Hall; [congruence|].
  cbn [forallb] in Hall. apply andb_prop in Hall as [Hos Hall].
  destruct oss as [|os2 oss]; cbn [cycles_end]; [exact Hos|].
  rewrite Hos. apply IH; [discriminate | exact Hall].
Qed.

Lemma cycles_calls_positions pos m segs : forall i oss,
  In (Child pos, m) (cycles_calls i segs oss) ->
  i <= pos < i + List.length oss.
Proof.
  induction segs as [|seg segs IH]; intros i oss Hin; [contradiction|].
  destruct oss as [|os oss]; [contradiction|].
  cbn [cycles_calls] in Hin. apply in_app_or in Hin as [Hin | Hin].
  - assert (pos = i); [|cbn; lia].
    unfold cycle_calls in Hin. cbn [In] in Hin. destruct Hin as [E | Hin]; [congruence|].
    apply in_app_or in Hin as [Hin | Hin].
    + apply in_map_iff in Hin as [so [E _]]. congruence.
    + cbn in Hin. destruct Hin as [E | []]. congruence.
  - apply IH in Hin. cbn. lia.
Qed.

Section SequenceRuns.
Context {Obj : Type} `{BehaviorElement.t Obj}.

Import SequenceElement.

Lemma children_cycles_length svc rs : forall segs (h : Store) oss h',
  children_cycles svc rs segs h = Some (oss, h') ->
  List.length oss = List.length rs.
Proof.
  induction rs as [|r rs IH]; intros segs h oss h' E;
    destruct segs as [|seg segs]; cbn in E; try discriminate.
  - injection E as <- _. reflexivity.
  - destruct (child_cycle svc r seg h) as [[os h1]|]; [|discriminate].
    destruct (children_cycles svc rs segs h1) as [[oss' h2]|] eqn:E'; [|discriminate].
    injection E as <- _. cbn. f_equal. exact (IH _ _ _ _ E').
Qed.

(** C1: a sequence of N >= 1 children, each of which reports [Running]
    until it reports [Success] on the last input of its share [segs].
    Ticked over all the inputs from [initialize] on, the sequence calls
    its children one after the other, each exactly through its own cycle
    ([initialize], one [tick] per input of its share, [finalize]) and never
    again; it reports [Running] on every tick but the last and [Success]
    on the last; and the command it reports on each tick is the one the
    child ticked on that tick has just produced. *)
Theorem sequence_of_succeeding_children :
  forall (svc : Services) (el : Elements) (segs : list (list SenseInfo))
         (h : Store) (oss : list (list Outcome)) (h' : Store),
    el <> [] ->
    children_cycles svc el segs h = Some (oss, h') ->
    forallb (ends_with Success) oss = true ->
    exists outs w',
      ticks (List.concat segs) (started svc el h) = Some (outs, w')
      /\ calls (trace w') = cycles_calls 0 segs oss
      /\ ends_with Success outs = true
      /\ map actuate outs = map actuate (List.concat oss)
      /\ store w' = h'
      /\ m_iter (self w') = At (List.length el).
Proof.
  intros svc el segs h oss h' Hne Hcyc Hall.
  pose proof (children_cycles_length _ _ _ _ Hcyc) as Hlen.
  assert (Hoss : oss <> []) by (destruct oss, el; cbn in *; congruence).
  pose proof (cycles_end_all Hoss Hall) as Hend.
  destruct (@ticks_cycles _ _ Success el segs (started svc el h) oss h' [] [])
    as (w' & tr & E & _ & _ & Hit & _ & Hst & Htr & Hc); cbn;
    try assumption; try reflexivity; try discriminate.
  { rewrite app_nil_r. reflexivity. }
  cbn in E, Htr, Hit. exists (sequence_outcomes el 0 oss), w'.
  repeat split; try assumption.
  - rewrite Htr. exact Hc.
  - apply sequence_outcomes_end; [exact Hend | right; cbn; lia | cbn; lia].
  - apply sequence_outcomes_actuate.
Qed.

(** C2: children 1..k-1 each end with [Success], child k ends with
    [Fail], and more children follow.  Ticked from [initialize] on over
    the inputs of these k cycles, the sequence reports [Running] up to the
    tick child k fails on and, on that tick, the very outcome of child k,
    [Fail] with its command; the calls it has made by then are the k
    cycles, so that no child behind child k (positions are counted
    from 0) has been initialized or ticked. *)
Theorem sequence_stops_at_failing_child :
  forall (svc : Services) (pre : Elements) (r : ref) (post : Elements)
         (segs : list (list SenseInfo)) (h : Store)
         (oss : list (list Outcome)) (h' : Store),
    post <> [] ->
    children_cycles svc (pre ++ [r]) segs h = Some (oss, h') ->
    cycles_end Fail oss = true ->
    exists outs w',
      ticks (List.concat segs) (started svc (pre ++ r :: post) h) = Some (outs, w')
      /\ ends_with Fail outs = true
      /\ last outs Outcome_default = last (List.concat oss) Outcome_default
      /\ map actuate outs = map actuate (List.concat oss)
      /\ calls (trace w') = cycles_calls 0 segs oss
      /\ (forall pos m, In (Child pos, m) (calls (trace w')) -> pos <= List.length pre)
      /\ store w' = h'.
Proof.
  intros svc pre r post segs h oss h' Hpost Hcyc Hend.
  pose proof (children_cycles_length _ _ _ _ Hcyc) as Hlen.
  rewrite length_app in Hlen. cbn in Hlen.
  destruct (@ticks_cycles _ _ Fail (pre ++ [r]) segs
              (started svc (pre ++ r :: post) h) oss h' [] post)
    as (w' & tr & E & _ & _ & Hit & _ & Hst & Htr & Hc); cbn;
    try assumption; try reflexivity; try discriminate.
  { rewrite <- app_assoc. reflexivity. }
  cbn in E, Htr. exists (sequence_outcomes (pre ++ r :: post) 0 oss), w'.
  assert (Hle : 0 + List.length oss <= List.length (pre ++ r :: post)).
  { rewrite length_app. cbn. lia. }
  pose proof (@sequence_outcomes_end Fail (pre ++ r :: post) oss 0 Hend
                (or_introl eq_refl) Hle) as Hends.
  repeat split; try assumption.
  - apply sequence_outcomes_last. exact Hend.
  - apply sequence_outcomes_actuate.
  - rewrite Htr. exact Hc.
  - intros pos m Hin. rewrite Htr, Hc in Hin. cbn in Hin.
    apply cycles_calls_positions in Hin. lia.
Qed.

End SequenceRuns.

Lemma sequence_of_succeeding_children_witness :
  exists outs w',
    SequenceElement.ticks
      ([mkSenseInfo 0 0 false false 0; mkSenseInfo 1 4 false false 1]
       ++ [mkSenseInfo 1 4 false false 2; mkSenseInfo 0 4 false false 3] ++ [])
      (started Services_default [Main.walk; Main.stop] (Main.objects 4%float))
    = Some (outs, w')
    /\ map value outs = [Running; Running; Running; Success]
    /\ SequenceElement.m_iter (SequenceElement.self w') = SequenceElement.At 2.
Proof.
  edestruct (@sequence_of_succeeding_children Main.Leaf _ Services_default
               [Main.walk; Main.stop]
               [[mkSenseInfo 0 0 false false 0; mkSenseInfo 1 4 false false 1];
                [mkSenseInfo 1 4 false false 2; mkSenseInfo 0 4 false false 3]]
               (Main.objects 4%float))
    as (outs & w' & E & _ & _ & _ & _ & Hit).
  - discriminate.
  - reflexivity.
  - reflexivity.
  - exists outs, w'. split; [exact E|]. split; [|exact Hit].
    assert (E' : option_map fst (Some (outs, w')) = Some outs) by reflexivity.
    rewrite <- E in E'. vm_compute in E'. injection E' as <-. reflexivity.
Defined.

Lemma sequence_stops_at_failing_child_witness :
  exists outs w',
    SequenceElement.ticks
      ([mkSenseInfo 0 0 false false 0;
        mkSenseInfo 1 1 false false 61000000000] ++ [])
      (started Services_default ([] ++ Main.walk :: [Main.stop])
               (Main.objects 4%float))
    = Some (outs, w')
    /\ ends_with Fail outs = true
    /\ forall pos m, In (Child pos, m) (calls (SequenceElement.trace w')) -> pos <= 0.
Proof.
  edestruct (@sequence_stops_at_failing_child Main.Leaf _ Services_default
               [] Main.walk [Main.stop]
               [[mkSenseInfo 0 0 false false 0;
                 mkSenseInfo 1 1 false false 61000000000]]%float
               (Main.objects 4%float))
    as (outs & w' & E & Hend & _ & _ & _ & Hpos & _).
  - discriminate.
  - reflexivity.
  - reflexivity.
  - exists outs, w'. split; [exact E|]. split; [exact Hend | exact Hpos].
Defined.

Section SequenceEnds.
Context {Obj : Type} `{BehaviorElement.t Obj}.

Import SequenceElement.

(** C5: a sequence constructed with no children.  After [initialize], the
    first tick, and every tick after it, returns [Fail]; the store and the
    trace stay as they are, so no method of any child is called. *)
Theorem empty_sequence_fails :
  forall (svc : Services) (h : Store) (s : SenseInfo) (ss : list SenseInfo),
    exists o,
      tick s (started svc [] h) = Some (o, started svc [] h)
      /\ value o = Fail
      /\ calls (trace (started svc [] h)) = []
      /\ ticks ss (started svc [] h)
         = Some (map (fun _ => o) ss, started svc [] h).
Proof.
  intros svc h s ss. exists (mkOutcome Fail (mkActuateCmd 0%float)).
  assert (Hend : forall s', tick s' (started svc [] h)
                 = Some (mkOutcome Fail (mkActuateCmd 0%float), started svc [] h))
    by (intros s'; apply tick_at_end; reflexivity).
  repeat split; try apply Hend.
  induction ss as [|s' ss IH]; [reflexivity|].
  rewrite ticks_cons, Hend, IH. reflexivity.
Qed.

(** C10: a sequence whose iterator is past its last child.  Every tick
    returns (no undefined behaviour) the outcome [Fail] with the
    value-initialized command, velocity 0, and leaves the sequence, the
    store and the trace as they are: no method of any child is called. *)
Theorem tick_past_the_last_child :
  forall (w : World) (ss : list SenseInfo),
    m_iter (self w) = At (List.length (m_elements (self w))) ->
    ticks ss w
    = Some (map (fun _ => mkOutcome Fail (mkActuateCmd 0%float)) ss, w)
    /\ forall s, tick s w = Some (mkOutcome Fail (mkActuateCmd 0%float), w).
Proof.
  intros w ss Hit.
  assert (Hend : forall s, tick s w = Some (mkOutcome Fail (mkActuateCmd 0%float), w))
    by (intros s; apply tick_at_end; exact Hit).
  split; [|exact Hend].
  induction ss as [|s ss IH]; [reflexivity|].
  rewrite ticks_cons, Hend, IH. reflexivity.
Qed.

End SequenceEnds.

Lemma tick_past_the_last_child_witness :
  let w := SequenceElement.mkWorld
             (SequenceElement.mk Services_default [Main.walk; Main.stop]
                (SequenceElement.At 2) true ElementMeta_default)
             (Main.objects 4%float) [] in
  SequenceElement.ticks [SenseInfo_default; SenseInfo_default] w
  = Some ([mkOutcome Fail (mkActuateCmd 0%float);
           mkOutcome Fail (mkActuateCmd 0%float)], w)
  /\ forall s, SequenceElement.tick s w
               = Some (mkOutcome Fail (mkActuateCmd 0%float), w).
Proof.
  intros w.
  exact (@tick_past_the_last_child Main.Leaf _ w
           [SenseInfo_default; SenseInfo_default] eq_refl).
Defined.

(* ===================================================================== *)
(** * The leaf adapter                                                    *)
(* ===================================================================== *)

Section Leaf.
Context {D : Type} `{MotionElement.Derived D}.

Lemma mask_ops_app (a b : list Event) : mask_ops (a ++ b) = mask_ops a ++ mask_ops b.
Proof.
  induction a as [|e a IH]; [reflexivity|].
  destruct e; cbn; rewrite IH; reflexivity.
Qed.

Lemma leaf_tick_mask_ops s (me : MotionElement.obj D) :
  mask_ops (snd (MotionElement.tick s me)) = [].
Proof.
  unfold MotionElement.tick.
  destruct (MotionElement.m_first_tick me);
    [destruct (MotionElement.motion_element_data_initialize _ _) as [d inner]|];
    cbn; destruct (MotionElement.motion_element_tick _ _) as [[o d'] inner'];
    reflexivity.
Qed.

Lemma leaf_ticks_mask_ops ss : forall (me : MotionElement.obj D),
  mask_ops (snd (leaf_ticks ss me)) = [].
Proof.
  induction ss as [|s ss IH]; intros me; [reflexivity|].
  cbn [leaf_ticks]. pose proof (leaf_tick_mask_ops s me) as Ht.
  destruct (MotionElement.tick s me) as [[o me1] tr]. specialize (IH me1).
  destruct (leaf_ticks ss me1) as [[os me2] tr']. cbn in *.
  rewrite mask_ops_app, Ht, IH. reflexivity.
Qed.

(** The mask has the knee-jerk flag in bit 0, the flinch flag in bit 1 and
    nothing else. *)
Lemma get_reaction_defs_bits :
  MotionElement.get_reaction_defs
  = Z.lor (Z.b2z (enabled MotionElement.KNEE_JERK_REACTION))
          (Z.shiftl (Z.b2z (enabled MotionElement.FLINCH_REACTION)) 1).
Proof.
  unfold MotionElement.get_reaction_defs.
  pose proof MotionElement.KNEE_JERK_REACTION_specified as Hk.
  pose proof MotionElement.FLINCH_REACTION_specified as Hf.
  destruct MotionElement.KNEE_JERK_REACTION, MotionElement.FLINCH_REACTION;
    try congruence; reflexivity.
Qed.

End Leaf.

(** C3: over one cycle of any leaf built on the adapter, whatever the
    inputs ticked in between and whatever the leaf does to its own state,
    the adapter calls the reaction service exactly twice: [activate] in
    [initialize] and [release] in [finalize], both with the same mask,
    which is the OR of the leaf's knee-jerk flag (bit 0) and flinch flag
    (bit 1).  For [WalkToPosition] (knee-jerk enabled, flinch disabled) the
    mask is the knee-jerk bit alone. *)
Theorem reaction_mask_activated_and_released :
  forall (D : Type) (L : MotionElement.Derived D) (svc : Services)
         (ss : list SenseInfo) (me : MotionElement.obj D),
    let mask := Z.lor (Z.b2z (enabled MotionElement.KNEE_JERK_REACTION))
                      (Z.shiftl (Z.b2z (enabled MotionElement.FLINCH_REACTION)) 1) in
    mask_ops (snd (MotionElement.initialize svc me)) = [(true, mask)]
    /\ mask_ops (snd (MotionElement.finalize me)) = [(false, mask)]
    /\ mask_ops (snd (leaf_cycle svc ss me)) = [(true, mask); (false, mask)]
    /\ MotionElement.get_reaction_defs (D := WalkToPosition.t) = 1%Z.
Proof.
  intros D L svc ss me mask. subst mask. rewrite <- get_reaction_defs_bits.
  assert (Hi : mask_ops (snd (MotionElement.initialize svc me))
               = [(true, MotionElement.get_reaction_defs)]).
  { unfold MotionElement.initialize. cbn.
    destruct (MotionElement.motion_element_initialize _) as [[meta d] inner].
    reflexivity. }
  assert (Hf : forall me', mask_ops (snd (MotionElement.finalize me'))
               = [(false, MotionElement.get_reaction_defs)]).
  { intros me'. unfold MotionElement.finalize.
    destruct (MotionElement.motion_element_finalize _) as [d inner]. reflexivity. }
  split; [exact Hi|]. split; [apply Hf|]. split; [|reflexivity].
  unfold leaf_cycle.
  destruct (MotionElement.initialize svc me) as [[meta me1] tr0].
  pose proof (leaf_ticks_mask_ops ss me1) as Ht.
  destruct (leaf_ticks ss me1) as [[os me2] tr1].
  specialize (Hf me2). destruct (MotionElement.finalize me2) as [me3 tr2].
  cbn in *. rewrite !mask_ops_app, Hi, Ht, Hf. reflexivity.
Qed.

Section LeafHooks.
Context {D : Type} `{MotionElement.Derived D}.







End LeafHooks.


(* ===================================================================== *)
(** * WalkToPosition                                                      *)
(* ===================================================================== *)

(** [a <= b] excludes [b < a], also on infinities and NaN. *)
Lemma float_leb_not_ltb (a b : float) :
  (a <=? b)%float = true -> (b <? a)%float = false.
Proof.
  rewrite leb_spec, ltb_spec. unfold SFleb, SFltb.
  destruct (Prim2SF a) as [sa|sa| |sa ma ea], (Prim2SF b) as [sb|sb| |sb mb eb];
    cbn; try congruence;
    try (destruct sa; congruence); try (destruct sb; congruence);
    try (destruct sa, sb; congruence).
  assert (E : Pos.compare_cont Eq ma mb = CompOpp (Pos.compare_cont Eq mb ma))
    by (symmetry; apply (Pos.compare_cont_antisym mb ma Eq)).
  destruct sa, sb; try congruence;
    rewrite (Z.compare_antisym ea eb);
    destruct (ea ?= eb)%Z; cbn; try congruence;
    rewrite E; destruct (Pos.compare_cont Eq mb ma); cbn; congruence.
Qed.

(** Within 64 bits nothing wraps. *)
Lemma int64_wrap_exact (z : Z) :
  (- 2 ^ 63 <= z < 2 ^ 63)%Z -> int64_wrap z = z.
Proof.
  intros Hz. unfold int64_wrap. rewrite Z.mod_small by lia. lia.
Qed.

Lemma int64_wrap_range (z : Z) : (- 2 ^ 63 <= int64_wrap z < 2 ^ 63)%Z.
Proof.
  unfold int64_wrap.
  pose proof (Z.mod_pos_bound (z + 2 ^ 63) (2 ^ 64) ltac:(lia)). lia.
Qed.

Lemma time_point_sub_exact (a b : time_point) :
  (- 2 ^ 63 <= a - b < 2 ^ 63)%Z -> time_point_sub a b = (a - b)%Z.
Proof. apply int64_wrap_exact. Qed.

(** Between two readings of a clock that counts up from its epoch the
    difference is the time elapsed. *)
Lemma time_point_sub_steady (a b : time_point) :
  (0 <= b <= a)%Z -> (a < 2 ^ 63)%Z -> time_point_sub a b = (a - b)%Z.
Proof. intros Hb Ha. apply time_point_sub_exact. lia. Qed.

Lemma time_point_sub_diag (a : time_point) : time_point_sub a a = 0%Z.
Proof. unfold time_point_sub. rewrite Z.sub_diag. reflexivity. Qed.

Lemma walk_tick_keeps_state me s :
  snd (fst (WalkToPosition.motion_element_tick me s)) = me.
Proof.
  unfold WalkToPosition.motion_element_tick.
  destruct (_ <? _)%float; [reflexivity|].
  destruct (_ >? _)%Z; [reflexivity|].
  destruct (is_knee_jerking s); reflexivity.
Qed.

(** Past the timeout and short of the goal, the decision is [Fail]. *)
Lemma walk_outcome_timeout me s :
  (WalkToPosition.GOAL_THRESHOLD
     <=? abs (WalkToPosition.goal_x me - measured_x s))%float = true ->
  (time_point_sub (ts s) (WalkToPosition.init_ts me) > WalkToPosition.TIMEOUT)%Z ->
  value (walk_outcome me s) = Fail.
Proof.
  intros Hfar Hlate. unfold walk_outcome, WalkToPosition.motion_element_tick.
  rewrite (float_leb_not_ltb Hfar).
  apply Z.gtb_gt in Hlate. rewrite Hlate. reflexivity.
Qed.

(** Short of the goal, within the timeout and knee-jerking, the decision
    is to keep running at velocity 0. *)
Lemma walk_outcome_knee_jerking me s :
  is_knee_jerking s = true ->
  (WalkToPosition.GOAL_THRESHOLD
     <=? abs (WalkToPosition.goal_x me - measured_x s))%float = true ->
  (time_point_sub (ts s) (WalkToPosition.init_ts me) <= WalkToPosition.TIMEOUT)%Z ->
  walk_outcome me s = mkOutcome Running (mkActuateCmd 0%float).
Proof.
  intros Hkj Hfar Hin. unfold walk_outcome, WalkToPosition.motion_element_tick.
  rewrite (float_leb_not_ltb Hfar).
  assert (Hgt : (time_point_sub (ts s) (WalkToPosition.init_ts me) >? WalkToPosition.TIMEOUT)%Z = false)
    by (rewrite Z.gtb_ltb; apply Z.ltb_ge; exact Hin).
  rewrite Hgt, Hkj. reflexivity.
Qed.

(** The outcome of a tick through the adapter: on the first tick the
    decision is taken with the time stamp of that very tick latched. *)
Lemma walk_adapter_outcome (obj : MotionElement.obj WalkToPosition.t) s :
  fst (fst (MotionElement.tick s obj))
  = walk_outcome
      (WalkToPosition.mk
         (WalkToPosition.goal_x (MotionElement.derived obj))
         (if MotionElement.m_first_tick obj then ts s
          else WalkToPosition.init_ts (MotionElement.derived obj)))
      s.
Proof.
  destruct obj as [[goal t0] svc ft]. unfold MotionElement.tick, walk_outcome. cbn.
  destruct ft; cbn;
    destruct (WalkToPosition.motion_element_tick _ s) as [[o d] inner]; reflexivity.
Qed.

(** C9: [WalkToPosition] ticked while the knee-jerk reflex is active,
    short of its goal (the distance is at least the threshold) and within
    its timeout (counted from the time stamp latched on the first tick,
    which on the first tick is that of the tick itself; the time elapsed
    is the difference of the two stamps as the walk computes it, in 64
    bits): the tick returns [Running] with velocity 0. *)
Theorem walk_commands_zero_while_knee_jerking :
  forall (obj : MotionElement.obj WalkToPosition.t) (s : SenseInfo),
    let goal := WalkToPosition.goal_x (MotionElement.derived obj) in
    let start := if MotionElement.m_first_tick obj then ts s
                 else WalkToPosition.init_ts (MotionElement.derived obj) in
    is_knee_jerking s = true ->
    (WalkToPosition.GOAL_THRESHOLD <=? abs (goal - measured_x s))%float = true ->
    (time_point_sub (ts s) start <= WalkToPosition.TIMEOUT)%Z ->
    fst (fst (MotionElement.tick s obj)) = mkOutcome Running (mkActuateCmd 0%float).
Proof.
  intros obj s goal start Hkj Hfar Hin. rewrite walk_adapter_outcome.
  apply walk_outcome_knee_jerking; assumption.
Qed.

Lemma walk_commands_zero_while_knee_jerking_witness :
  fst (fst (MotionElement.tick
              (mkSenseInfo 0%float 0%float false true 5%Z)
              (MotionElement.construct (WalkToPosition.construct 4%float))))
  = mkOutcome Running (mkActuateCmd 0%float).
Proof.
  apply walk_commands_zero_while_knee_jerking.
  - reflexivity.
  - vm_compute. reflexivity.
  - vm_compute. discriminate.
Defined.

Section WalkInSequence.

Import SequenceElement.

Lemma upd_same (Obj : Type) (h : Store (Obj := Obj)) r x : upd h r x r = x.
Proof. unfold upd. rewrite Nat.eqb_refl. reflexivity. Qed.

(** A [WalkToPosition] behind [r], past its first tick, ticked on. *)
Lemma walk_child_ticks r d svc ss : forall (h : Store (Obj := Main.Leaf)),
  h r = Main.AWalkToPosition (MotionElement.mk d svc false) ->
  exists h',
    child_ticks r ss h = Some (map (walk_outcome d) ss, h')
    /\ h' r = Main.AWalkToPosition (MotionElement.mk d svc false).
Proof.
  induction ss as [|s ss IH]; intros h Hh.
  - exists h. split; [reflexivity|exact Hh].
  - cbn [child_ticks]. rewrite Hh. cbn.
    pose proof (walk_tick_keeps_state d s) as Hk. unfold walk_outcome at 1.
    destruct (WalkToPosition.motion_element_tick d s) as [[o d'] inner].
    cbn in Hk. subst d'. cbn.
    destruct (IH (upd h r (Main.AWalkToPosition (MotionElement.mk d svc false))))
      as [h' [E Hh']]; [apply upd_same|].
    rewrite E. exists h'. split; [reflexivity|exact Hh'].
Qed.

Lemma ends_with_snoc t os o :
  forallb (fun o' => Return_eqb (value o') Running) os = true ->
  value o = t ->
  ends_with t (os ++ [o]) = true.
Proof.
  intros Hos Ho. apply ends_with_app; [exact Hos|].
  cbn. apply Return_eqb_eq. exact Ho.
Qed.

(** C7: a sequence whose first child is a [WalkToPosition], ticked from
    [initialize] on.  The walk latches the time stamp of its first input
    [s1] and keeps running over [s1] and the inputs [mid]; then comes an
    input [s] stamped more than the timeout after [s1] (the difference of
    the two stamps as the walk computes it, in 64 bits, exceeds the
    timeout), with the goal not reached.  On [s] the walk's tick returns [Fail], the sequence returns
    [Fail] on that same tick, and all the calls the sequence has made are
    the one cycle of the walk: the next child is not initialized. *)
Theorem walk_timeout_fails_the_sequence :
  forall (svc : Services) (h : Store (Obj := Main.Leaf)) (r : ref)
         (rest : Elements) (me : MotionElement.obj WalkToPosition.t)
         (s1 : SenseInfo) (mid : list SenseInfo) (s : SenseInfo),
    let goal := WalkToPosition.goal_x (MotionElement.derived me) in
    let latched := WalkToPosition.mk goal (ts s1) in
    h r = Main.AWalkToPosition me ->
    (forall s', In s' (s1 :: mid) -> value (walk_outcome latched s') = Running) ->
    (time_point_sub (ts s) (ts s1) > WalkToPosition.TIMEOUT)%Z ->
    (WalkToPosition.GOAL_THRESHOLD <=? abs (goal - measured_x s))%float = true ->
    exists os outs w',
      ticks (s1 :: mid ++ [s]) (started svc (r :: rest) h) = Some (outs, w')
      /\ calls (trace w') = cycle_calls 0 (s1 :: mid ++ [s]) os
      /\ os = map (walk_outcome latched) (s1 :: mid ++ [s])
      /\ value (walk_outcome latched s) = Fail
      /\ ends_with Fail os = true
      /\ ends_with Fail outs = true
      /\ ~ In (Child 1, Initialize) (calls (trace w')).
Proof.
  intros svc h r rest me s1 mid s goal latched Hh Hrun Hlate Hfar.
  pose proof (@walk_outcome_timeout latched s Hfar Hlate) as Hfail.
  set (os := map (walk_outcome latched) (s1 :: mid ++ [s])).
  assert (Hend : ends_with Fail os = true).
  { subst os. change (s1 :: mid ++ [s]) with ((s1 :: mid) ++ [s]).
    rewrite map_app. apply ends_with_snoc; [|exact Hfail].
    apply forallb_forall. intros o Ho. apply in_map_iff in Ho as [s' [<- Hs']].
    apply Return_eqb_eq, Hrun, Hs'. }
  assert (Hcyc : exists h1,
            child_cycle svc r (s1 :: mid ++ [s]) h = Some (os, h1)).
  { unfold child_cycle. rewrite Hh. destruct me as [[g t0] svc0 ft]. cbn.
    rewrite upd_same. cbn.
    pose proof (walk_tick_keeps_state latched s1) as Hk.
    subst goal. cbn in latched. fold latched.
    destruct (WalkToPosition.motion_element_tick latched s1) as [[o1 d'] inner] eqn:E1.
    cbn in Hk. subst d'. cbn.
    edestruct (@walk_child_ticks r latched svc (mid ++ [s])) as [h2 [E2 Hh2]];
      [apply upd_same|].
    rewrite E2, Hh2. cbn. eexists. subst os. cbn [map].
    unfold walk_outcome at 2. rewrite E1. reflexivity. }
  destruct Hcyc as [h1 Hcyc].
  destruct (@ticks_cycle _ _ Fail 0 r (s1 :: mid ++ [s]) (started svc (r :: rest) h) os h1)
    as (meta & tr & E & Hc); try assumption; try reflexivity; try discriminate.
  rewrite (@forward_last_kept Fail _ 0 os Hend (or_introl eq_refl)) in E.
  exists os. eexists. eexists. split; [exact E|].
  unfold started. cbn [trace app]. split; [exact Hc|]. split; [reflexivity|].
  split; [exact Hfail|]. split; [exact Hend|]. split; [exact Hend|].
  rewrite Hc. unfold cycle_calls. cbn [In]. intros [F | F]; [discriminate|].
  apply in_app_or in F as [F | F].
  - apply in_map_iff in F as [so [F _]]. discriminate.
  - destruct F as [F | []]. discriminate.
Qed.

End WalkInSequence.

Lemma walk_timeout_fails_the_sequence_witness :
  exists os outs w',
    SequenceElement.ticks
      (mkSenseInfo 0 0 false false 7
       :: [mkSenseInfo 1 0.1 false false 100000007]
       ++ [mkSenseInfo 1 0.2 false false 60000000008])
      (started Services_default (Main.walk :: [Main.stop]) (Main.objects 4%float))
    = Some (outs, w')
    /\ calls (SequenceElement.trace w')
       = cycle_calls 0 (mkSenseInfo 0 0 false false 7
                        :: [mkSenseInfo 1 0.1 false false 100000007]
                        ++ [mkSenseInfo 1 0.2 false false 60000000008]) os
    /\ map value os = [Running; Running; Fail]
    /\ map value outs = [Running; Running; Fail].
Proof.
  edestruct (@walk_timeout_fails_the_sequence Services_default
               (Main.objects 4%float) Main.walk [Main.stop]
               (MotionElement.construct (WalkToPosition.construct 4%float))
               (mkSenseInfo 0 0 false false 7)
               [mkSenseInfo 1 0.1 false false 100000007]
               (mkSenseInfo 1 0.2 false false 60000000008))
    as (os & outs & w' & E & Hc & Hos & _ & _ & _ & _).
  - reflexivity.
  - intros s' [<- | [<- | []]]; reflexivity.
  - reflexivity.
  - reflexivity.
  - exists os, outs, w'. split; [exact E|]. split; [exact Hc|].
    split; [rewrite Hos; reflexivity|].
    assert (E' : option_map fst (Some (outs, w')) = Some outs) by reflexivity.
    rewrite <- E in E'. vm_compute in E'. injection E' as <-. reflexivity.
Defined.

(** Outside the life cycle: the sequence keeps no record of the failure.
    Ticked once more after it has reported [Fail], without a new
    [initialize], it goes on with the next child. *)
Example tick_after_failure_starts_next_child :
  match SequenceElement.ticks
          [mkSenseInfo 0 0 false false 7;
           mkSenseInfo 1 0.2 false false 60000000008;
           mkSenseInfo 0 0.2 false false 60000000009]
          (started Services_default [Main.walk; Main.stop] (Main.objects 4%float))
  with
  | Some (outs, w) =>
      (map value outs,
       map (fun cm => match cm with
                      | (Child pos, Initialize) => Some pos
                      | _ => None
                      end)
           (calls (SequenceElement.trace w)))
  | None => ([], [])
  end
  = ([Running; Fail; Success],
     [Some 0; None; None; None; Some 1; None; None]).
Proof. vm_compute. reflexivity. Qed.

(* ===================================================================== *)
(** * Executor::run                                                       *)
(* ===================================================================== *)

Section ExecutorLoop.
Context {T : Type} `{BehaviorElement.t T}.
Variable now : nat -> time_point.

Import Executor.

(** The body of the loop returns whenever the tick of the element does,
    with this frame. *)
Lemma body_returns meta (f : Frame) o el inner :
  BehaviorElement.tick (set_ts (now (readings f)) (sense f)) (element f)
  = Some (o, el, inner) ->
  body now meta f
  = Some (mkFrame el o
            (set_measured_velocity (velocity (actuate o))
               (set_measured_x
                  (measured_x (sense f) + velocity (actuate o) * 100 / 1000)%float
                  (set_ts (now (readings f)) (sense f))))
            (S (readings f))
            (trace f
             ++ step_events meta
                  (set_ts (now (readings f)) (sense f), o, el, inner))).
Proof.
  intros E. unfold body. rewrite E. cbn. rewrite <- app_assoc. reflexivity.
Qed.

Lemma body_undefined meta (f : Frame) :
  BehaviorElement.tick (set_ts (now (readings f)) (sense f)) (element f) = None ->
  body now meta f = None.
Proof. intros E. unfold body. rewrite E. reflexivity. Qed.

Lemma calls_step_events meta
    (steps : list (SenseInfo * Outcome * T * list Event)) :
  calls (flat_map (step_events meta) steps)
  = map (fun st => (Root, Tick (fst (step_io st)) (snd (step_io st)))) steps.
Proof.
  induction steps as [|[[[s o] el] inner] steps IH]; [reflexivity|].
  cbn. f_equal. exact IH.
Qed.

(** The loop on an element that answers [front] with [Running] and then
    the last step with another value. *)
Lemma loop_answers meta :
  forall front fuel (f : Frame) s o el1 inner1,
    answers (element f) (front ++ [(s, o, el1, inner1)]) ->
    fed now (sense f) (readings f) (map step_io (front ++ [(s, o, el1, inner1)])) ->
    Forall (fun st => value (snd (step_io st)) = Running) front ->
    value o <> Running ->
    List.length front < fuel ->
    loop now fuel meta f
    = Returned
        (mkFrame el1 o
           (set_measured_velocity (velocity (actuate o))
              (set_measured_x
                 (measured_x s + velocity (actuate o) * 100 / 1000)%float s))
           (readings f + S (List.length front))
           (trace f ++ flat_map (step_events meta) (front ++ [(s, o, el1, inner1)]))).
Proof.
  induction front as [|[[[s1 o1] e1] i1] front IH];
    intros fuel f s o el1 inner1 Hans Hfed Hrun Hterm Hfuel;
    (destruct fuel as [|fuel]; [cbn in Hfuel; lia|]);
    cbn [app answers map step_io fed] in Hans, Hfed;
    destruct Hans as [Ht Hans]; destruct Hfed as [Hs Hfed]; subst;
    cbn [loop]; rewrite (body_returns meta f Ht); cbn [out].
  - destruct (Return_eqb (value o) Running) eqn:Hr;
      [apply Return_eqb_eq in Hr; contradiction|].
    cbn. rewrite ?Nat.add_1_r, ?app_nil_r. reflexivity.
  - inversion Hrun as [|? ? Hr1 Hrun']; subst. cbn in Hr1. rewrite Hr1.
    cbn [Return_eqb].
    rewrite (IH fuel _ s o el1 inner1); cbn [element sense readings trace];
      try assumption; [|cbn in Hfuel; lia].
    f_equal. f_equal; [cbn; lia | rewrite <- app_assoc; reflexivity].
Qed.

(** Conversely, a loop that returns was answered so. *)
Lemma loop_returned_answers meta : forall fuel (f f' : Frame),
  loop now fuel meta f = Returned f' ->
  exists front s o el1 inner1,
    answers (element f) (front ++ [(s, o, el1, inner1)])
    /\ fed now (sense f) (readings f) (map step_io (front ++ [(s, o, el1, inner1)]))
    /\ Forall (fun st => value (snd (step_io st)) = Running) front
    /\ value o <> Running
    /\ List.length front < fuel.
Proof.
  induction fuel as [|fuel IH]; intros f f' E; [discriminate|].
  cbn [loop] in E.
  destruct (BehaviorElement.tick (set_ts (now (readings f)) (sense f)) (element f))
    as [[[o el] inner]|] eqn:Ht.
  2:{ rewrite (body_undefined meta f Ht) in E. discriminate. }
  rewrite (body_returns meta f Ht) in E. cbn [out] in E.
  destruct (Return_eqb (value o) Running) eqn:Hr.
  - apply Return_eqb_eq in Hr.
    apply IH in E as (front & s & o' & el1 & inner1 & Hans & Hfed & Hrun & Hterm & Hlen).
    cbn [element sense readings] in Hans, Hfed.
    exists ((set_ts (now (readings f)) (sense f), o, el, inner) :: front),
           s, o', el1, inner1.
    cbn [app answers map step_io fed List.length].
    split; [split; assumption|]. split; [split; [reflexivity|exact Hfed]|].
    split; [constructor; [exact Hr|exact Hrun]|]. split; [exact Hterm|lia].
  - exists [], (set_ts (now (readings f)) (sense f)), o, el, inner.
    cbn [app answers map step_io fed List.length].
    split; [split; [exact Ht|exact I]|]. split; [split; [reflexivity|exact I]|].
    split; [constructor|]. split; [|lia].
    intros F. apply Return_eqb_eq in F. congruence.
Qed.

(** C6: the loop of [Executor::run], on any element and any clock.
    - One execution of the body: whenever the tick of the element, on the
      sense data stamped with the next clock reading, returns, the body
      returns; it has then added to [measured_x] the returned velocity
      times the period of 100 ms in seconds, computed as
      [velocity * 100 / 1000], and set [measured_velocity] to the returned
      velocity; and the loop goes on with the frame the body leaves when
      the returned value is [Running], and ends with that frame when it is
      not.  When the tick is undefined so is the body.
    - [run] returns exactly when [initialize] returns, the element then
      answers the inputs the executor feeds it ([fed]) with [Running] on
      the steps [front] (fewer than the fuel) and with another value on
      the step after them, and [finalize] returns on the element that
      step leaves.  What it returns is that last outcome, the last input
      moved by the last command, and the trace of [initialize], one tick
      per step and [finalize]: the calls made on the element are
      [initialize], the ticks, and [finalize] once, at the end.
    - For the velocities the leaves of [main] command (1, -1 and 0) the
      increment is the binary64 product of the velocity and 0.1. *)
Theorem executor_runs_until_terminal :
  (forall meta (f : Frame) o el inner,
      BehaviorElement.tick (set_ts (now (readings f)) (sense f)) (element f)
      = Some (o, el, inner) ->
      exists f',
        body now meta f = Some f'
        /\ element f' = el
        /\ out f' = o
        /\ measured_x (sense f')
           = (measured_x (sense f) + velocity (actuate o) * 100 / 1000)%float
        /\ measured_velocity (sense f') = velocity (actuate o)
        /\ forall fuel,
             loop now (S fuel) meta f
             = if Return_eqb (value o) Running then loop now fuel meta f'
               else Returned f')
  /\ (forall meta (f : Frame),
        BehaviorElement.tick (set_ts (now (readings f)) (sense f)) (element f)
        = None ->
        body now meta f = None)
  /\ (forall fuel (el : T) (g : Frame),
        run now fuel el = Returned g
        <-> exists meta el0 inner0 front s o el1 inner1 el2 inner2,
              let steps := front ++ [(s, o, el1, inner1)] in
              BehaviorElement.initialize Services_default el
              = Some (meta, el0, inner0)
              /\ answers el0 steps
              /\ fed now SenseInfo_default 1 (map step_io steps)
              /\ Forall (fun st => value (snd (step_io st)) = Running) front
              /\ value o <> Running
              /\ List.length front < fuel
              /\ BehaviorElement.finalize el1 = Some (el2, inner2)
              /\ g = mkFrame el2 o
                       (set_measured_velocity (velocity (actuate o))
                          (set_measured_x
                             (measured_x s + velocity (actuate o) * 100 / 1000)%float
                             s))
                       (S (S (List.length front)))
                       ([Call Root Initialize inner0;
                         Notify (name meta) (text "initialize")]
                        ++ flat_map (step_events meta) steps
                        ++ [Call Root Finalize inner2;
                            Notify (name meta) (text "finalize")])
              /\ calls (trace g)
                 = (Root, Initialize)
                   :: map (fun st =>
                             (Root, Tick (fst (step_io st)) (snd (step_io st))))
                          steps
                   ++ [(Root, Finalize)])
  /\ (1 * period_count / 1000 = 1 * 0.1
      /\ - (1) * period_count / 1000 = - (1) * 0.1
      /\ 0 * period_count / 1000 = 0 * 0.1)%float.
Proof.
  split.
  { intros meta f o el inner Ht. eexists.
    split; [apply (body_returns meta f Ht)|]. cbn [element out sense].
    repeat (split; [reflexivity|]).
    intros fuel. cbn [loop]. rewrite (body_returns meta f Ht). reflexivity. }
  split; [exact body_undefined|].
  split; [|repeat split; reflexivity].
  assert (Hfed0 : forall ticked,
            fed now (set_ts (now 0) SenseInfo_default) 1 ticked
            <-> fed now SenseInfo_default 1 ticked).
  { intros [|[s o] ticked]; reflexivity. }
  intros fuel el g. unfold run. cbv zeta. split.
  - destruct (BehaviorElement.initialize Services_default el)
      as [[[meta el0] inner0]|] eqn:Ei; [|discriminate].
    change (loop now fuel meta _)
      with (loop now fuel meta (entry now meta el0 inner0)).
    destruct (loop now fuel meta (entry now meta el0 inner0)) as [last| |] eqn:El;
      try discriminate.
    destruct (loop_returned_answers _ _ _ El)
      as (front & s & o & el1 & inner1 & Hans & Hfed & Hrun & Hterm & Hlen).
    rewrite (@loop_answers meta front fuel _ s o el1 inner1
               Hans Hfed Hrun Hterm Hlen) in El.
    injection El as <-. cbn [element out sense readings trace entry].
    destruct (BehaviorElement.finalize el1) as [[el2 inner2]|] eqn:Ef;
      [|discriminate].
    intros E. injection E as <-.
    exists meta, el0, inner0, front, s, o, el1, inner1, el2, inner2.
    cbn [entry element sense readings] in Hans, Hfed. apply Hfed0 in Hfed.
    split; [reflexivity|]. split; [exact Hans|]. split; [exact Hfed|].
    split; [exact Hrun|]. split; [exact Hterm|]. split; [exact Hlen|].
    split; [exact Ef|].
    split; [cbn [app]; rewrite <- ?app_assoc; reflexivity|].
    cbn [trace app calls]. rewrite calls_app, calls_step_events. reflexivity.
  - intros (meta & el0 & inner0 & front & s & o & el1 & inner1 & el2 & inner2
            & Ei & Hans & Hfed & Hrun & Hterm & Hlen & Ef & -> & _).
    rewrite Ei. apply Hfed0 in Hfed.
    rewrite (@loop_answers meta front fuel
               (mkFrame el0 Outcome_default
                  (set_ts (now 0) SenseInfo_default) 1 _)
               s o el1 inner1 Hans Hfed Hrun Hterm Hlen).
    cbn [element out sense readings trace]. rewrite Ef.
    rewrite <- app_assoc. reflexivity.
Qed.

End ExecutorLoop.

(** C6, the counterexample: the increment is not always the binary64
    product of the velocity and 0.1.  On an element that commands
    velocity 3 the body moves [measured_x] from 0 to [3 * 100 / 1000],
    the binary64 number nearest to 0.3, while [3 * 0.1] is the next
    binary64 number above it. *)
Lemma executor_increment_is_not_velocity_times_a_tenth :
  let el : Constant.t := mkOutcome Running (mkActuateCmd 3%float) in
  let f := Executor.entry every_100ms ElementMeta_default el [] in
  exists f',
    @Executor.body _ Constant.behavior every_100ms ElementMeta_default f = Some f'
    /\ velocity (actuate (Executor.out f')) = 3%float
    /\ measured_x (Executor.sense f) = 0%float
    /\ measured_x (Executor.sense f')
       <> (measured_x (Executor.sense f)
           + velocity (actuate (Executor.out f')) * 0.1)%float
    /\ (measured_x (Executor.sense f')
        <? measured_x (Executor.sense f)
           + velocity (actuate (Executor.out f')) * 0.1)%float = true.
Proof.
  intros el f. eexists. split; [reflexivity|]. cbn.
  split; [reflexivity|]. split; [reflexivity|].
  split; [|vm_compute; reflexivity].
  intros E. apply (f_equal Prim2SF) in E. vm_compute in E. discriminate.
Qed.

Lemma executor_runs_until_terminal_witness :
  exists g,
    Executor.run every_100ms 2
      (SequenceElement.construct [Main.stop; Main.stop], Main.objects 4%float)
    = Executor.Returned g
    /\ map snd (root_ticks (Executor.trace g))
       = [mkOutcome Running (mkActuateCmd 0%float);
          mkOutcome Success (mkActuateCmd 0%float)]
    /\ calls (Executor.trace g)
       = (Root, Initialize)
         :: map (fun so => (Root, Tick (fst so) (snd so)))
                (root_ticks (Executor.trace g))
         ++ [(Root, Finalize)].
Proof.
  destruct (@executor_runs_until_terminal
              (SequenceElement.obj * SequenceElement.Store (Obj := Main.Leaf)) _
              every_100ms) as (_ & _ & Hrun & _).
  eexists. split.
  - apply Hrun.
    eexists _, _, _, [(_, _, _, _)], _, _, _, _, _, _.
    cbn [app answers map step_io fed List.length].
    split; [lazy; reflexivity|].
    split; [split; [|split; [|exact I]]|split; [split; [|split; [|exact I]]|]].
    3: reflexivity.
    1: (lazy; reflexivity).
    2: (lazy; reflexivity).
    1: (lazy; reflexivity).
    split; [repeat constructor|]. split; [discriminate|]. split; [lia|].
    split; [lazy; reflexivity|]. split; [reflexivity|].
    lazy; reflexivity.
  - split; vm_compute; reflexivity.
Defined.

(* ===================================================================== *)
(** * main: walk to 4.0, then stop                                        *)
(* ===================================================================== *)

Section Scenario.
Variable now : nat -> time_point.
Hypothesis no_timeout :
  forall k, 1 <= k <= 39 -> (time_point_sub (now k) (now 1) < WalkToPosition.TIMEOUT)%Z.

Import Executor.

Lemma within_timeout k :
  1 <= k <= 39 -> (time_point_sub (now k) (now 1) >? WalkToPosition.TIMEOUT)%Z = false.
Proof.
  intros Hk. rewrite Z.gtb_ltb. apply Z.ltb_ge.
  specialize (no_timeout Hk). lia.
Qed.

Lemma loop_S (T : Type) (B : BehaviorElement.t T) fuel meta (f f' : Frame (T := T)) :
  body now meta f = Some f' ->
  loop now (S fuel) meta f
  = if Return_eqb (value (out f')) Running then loop now fuel meta f'
    else Returned f'.
Proof. intros E. cbn [loop]. rewrite E. reflexivity. Qed.

(** Evaluate the body of the loop on the frame at hand; the only test that
    does not compute is the timeout of the walk, which the hypothesis on
    the clock settles. *)
Ltac eval_body k :=
  lazy -[Z.gtb time_point_sub WalkToPosition.TIMEOUT];
  rewrite ?(within_timeout (k := k)) by lia;
  lazy -[Z.gtb time_point_sub WalkToPosition.TIMEOUT];
  reflexivity.

Ltac iteration k :=
  erewrite loop_S; [| eval_body k ]; cbn [out value Return_eqb].

(** C8: [Sequence([WalkToPosition(4.0), Stop])] under the executor, from
    [measured_x = 0], [measured_velocity = 0] and both reflex flags false,
    on a clock that shows less than the timeout elapsed on each of the
    ticks 1 to 39 (the difference of the reading of that tick and the
    reading of tick 1, as the walk computes it).  With fuel for 42 iterations, [run] returns, and:
    - the sequence reports [Running] with velocity +1 on the ticks 1 to
      40, [Running] with velocity 0 on tick 41 and [Success] on tick 42,
      which is the final outcome;
    - every tick whose [measured_x] is at least the threshold away from
      4.0 reports [Running] with velocity +1;
    - the walk is ticked on the ticks 1 to 40; its goal test fails on the
      first 39 of them, where it reports [Running], and holds on tick 40,
      where it reports [Success]; it is then finalized;
    - [Stop] is initialized after that and ticked on the ticks 41 and 42;
      on tick 41 the measured velocity exceeds the machine epsilon and it
      reports [Running] with velocity 0, on tick 42 it does not and it
      reports [Success]. *)
Theorem walk_then_stop_succeeds :
  forall fuel,
    42 <= fuel ->
    exists g,
      Main.main now fuel = Returned g
      /\ out g = mkOutcome Success (mkActuateCmd 0%float)
      /\ let ticked := root_ticks (trace g) in
         let walking := firstn 40 ticked in
         let stopping := skipn 40 ticked in
         map snd ticked
         = repeat (mkOutcome Running (mkActuateCmd 1%float)) 40
           ++ [mkOutcome Running (mkActuateCmd 0%float);
               mkOutcome Success (mkActuateCmd 0%float)]
         /\ (forall s o,
               In (s, o) ticked ->
               (WalkToPosition.GOAL_THRESHOLD <=? abs (4 - measured_x s))%float = true ->
               o = mkOutcome Running (mkActuateCmd 1%float))
         /\ calls (inside_root_ticks (trace g))
            = cycle_calls 0 (map fst walking)
                (repeat (mkOutcome Running (mkActuateCmd 1%float)) 39
                 ++ [mkOutcome Success (mkActuateCmd 1%float)])
              ++ cycle_calls 1 (map fst stopping)
                   [mkOutcome Running (mkActuateCmd 0%float);
                    mkOutcome Success (mkActuateCmd 0%float)]
         /\ map (fun so =>
                   (abs (4 - measured_x (fst so)) <? WalkToPosition.GOAL_THRESHOLD)%float)
                walking
            = repeat false 39 ++ [true]
         /\ map (fun so => (abs (measured_velocity (fst so)) <=? Stop.epsilon)%float)
                stopping
            = [false; true].
Proof.
  intros fuel Hfuel. replace fuel with (42 + (fuel - 42)) by lia.
  generalize (fuel - 42). clear fuel Hfuel. intros e.
  eexists. split.
  { unfold Main.main, run. cbv zeta.
    lazy [BehaviorElement.initialize SequenceElement.behavior
          SequenceElement.initialize fst snd name].
    cbn [Nat.add].
    iteration 1. iteration 2. iteration 3. iteration 4. iteration 5.
    iteration 6. iteration 7. iteration 8. iteration 9. iteration 10.
    iteration 11. iteration 12. iteration 13. iteration 14. iteration 15.
    iteration 16. iteration 17. iteration 18. iteration 19. iteration 20.
    iteration 21. iteration 22. iteration 23. iteration 24. iteration 25.
    iteration 26. iteration 27. iteration 28. iteration 29. iteration 30.
    iteration 31. iteration 32. iteration 33. iteration 34. iteration 35.
    iteration 36. iteration 37. iteration 38. iteration 39. iteration 40.
    iteration 41. iteration 42.
    lazy -[Z.gtb time_point_sub WalkToPosition.TIMEOUT]. reflexivity. }
  split; [reflexivity|].
  cbv zeta. split; [vm_compute; reflexivity|].
  split.
  { intros s o Hin Hfar. vm_compute in Hin.
    repeat (destruct Hin as [Hin | Hin];
            [injection Hin as <- <-;
             first [reflexivity | vm_compute in Hfar; discriminate]|]).
    contradiction. }
  split; [vm_compute; reflexivity|].
  split; vm_compute; reflexivity.
Qed.

End Scenario.

Lemma walk_then_stop_succeeds_witness :
  exists g,
    Main.main every_100ms 42 = Executor.Returned g
    /\ Executor.out g = mkOutcome Success (mkActuateCmd 0%float)
    /\ Executor.readings g = 43.
Proof.
  destruct (@walk_then_stop_succeeds every_100ms) with (fuel := 42)
    as (g & E & Hout & _).
  - intros k Hk. rewrite time_point_sub_steady by (unfold every_100ms; lia).
    unfold every_100ms, WalkToPosition.TIMEOUT. lia.
  - lia.
  - exists g. split; [exact E|]. split; [exact Hout|].
    assert (E' : match Executor.Returned g with
                 | Executor.Returned g' => Executor.readings g'
                 | _ => 0
                 end = Executor.readings g) by reflexivity.
    rewrite <- E in E'. vm_compute in E'. symmetry. exact E'.
Defined.

(* ===================================================================== *)
(** * SequenceElement::tick on arbitrary children                         *)
(* ===================================================================== *)

Section SequenceInvariants.
Context {Obj : Type} `{BehaviorElement.t Obj}.

Import SequenceElement.

Ltac step_tick :=
  cbv beta iota delta
    [tick bind ret undefined get modify emit notify iter_not_at_end deref
     incr_iter call_initialize call_tick call_finalize];
  cbn [self store trace fst snd m_svcs m_elements m_iter m_new_element m_meta
       set_m_svcs set_m_iter set_m_new_element set_m_meta].

Ltac crunch := cbn -[upd Nat.eqb nth_error List.length].

Ltac open_world w :=
  let me := fresh "me" in
  destruct w as [me ? ?]; destruct me; cbn [self store trace m_svcs m_elements
    m_iter m_new_element m_meta] in *; subst.

Lemma tick_initialize_undefined (s : SenseInfo) (w : World) i r :
  m_iter (self w) = At i ->
  nth_error (m_elements (self w)) i = Some r ->
  m_new_element (self w) = true ->
  BehaviorElement.initialize (m_svcs (self w)) (store w r) = None ->
  tick s w = None.
Proof.
  intros Hit Hnth Hnew Hinit.
  pose proof (nth_error_not_end _ _ Hnth) as Hlt.
  open_world w. step_tick.
  repeat (progress (crunch; rewrite ?Hlt, ?Hnth, ?Hinit)). reflexivity.
Qed.

Lemma tick_tick_undefined (s : SenseInfo) (w : World) i r :
  m_iter (self w) = At i ->
  nth_error (m_elements (self w)) i = Some r ->
  m_new_element (self w) = false ->
  BehaviorElement.tick s (store w r) = None ->
  tick s w = None.
Proof.
  intros Hit Hnth Hnew Htick.
  pose proof (nth_error_not_end _ _ Hnth) as Hlt.
  open_world w. step_tick.
  repeat (progress (crunch; rewrite ?Hlt, ?Hnth, ?Htick)). reflexivity.
Qed.

Lemma tick_finalize_undefined (s : SenseInfo) (w : World) i r o x inner :
  m_iter (self w) = At i ->
  nth_error (m_elements (self w)) i = Some r ->
  m_new_element (self w) = false ->
  BehaviorElement.tick s (store w r) = Some (o, x, inner) ->
  value o <> Running ->
  BehaviorElement.finalize (upd (store w) r x r) = None ->
  tick s w = None.
Proof.
  intros Hit Hnth Hnew Htick Hval Hfin.
  pose proof (nth_error_not_end _ _ Hnth) as Hlt.
  assert (Hr : Return_eqb (value o) Running = false)
    by (destruct (value o); [congruence|reflexivity|reflexivity]).
  open_world w. step_tick.
  repeat (progress (crunch; rewrite ?Hlt, ?Hnth, ?Htick, ?Hr, ?Hfin)). reflexivity.
Qed.

(** What a tick that returns has done, once the active child is
    initialized. *)
Lemma tick_initialized_cases (s : SenseInfo) (w : World) i r o w' :
  m_iter (self w) = At i ->
  nth_error (m_elements (self w)) i = Some r ->
  m_new_element (self w) = false ->
  tick s w = Some (o, w') ->
  exists o1 x inner,
    BehaviorElement.tick s (store w r) = Some (o1, x, inner)
    /\ ((value o1 = Running /\ o = o1
         /\ w' = mkWorld (self w) (upd (store w) r x)
                   (trace w ++ [Notify (name (m_meta (self w))) (text "tick");
                                Call (Child i) (Tick s o1) inner]))
        \/ (value o1 <> Running /\ o = forwarded (m_elements (self w)) i o1
            /\ exists x' inner',
                 BehaviorElement.finalize (upd (store w) r x r) = Some (x', inner')
                 /\ w' = mkWorld
                           (set_m_iter (At (S i)) (set_m_new_element true (self w)))
                           (upd (upd (store w) r x) r x')
                           (trace w
                            ++ [Notify (name (m_meta (self w))) (text "tick");
                                Call (Child i) (Tick s o1) inner;
                                Call (Child i) Finalize inner';
                                Notify (name (m_meta (self w))) (text "finalize")]))).
Proof.
  intros Hit Hnth Hnew E.
  destruct (BehaviorElement.tick s (store w r)) as [[[o1 x] inner]|] eqn:Htick.
  2:{ rewrite (tick_tick_undefined s w Hit Hnth Hnew Htick) in E. discriminate. }
  exists o1, x, inner. split; [reflexivity|].
  destruct (Return_eqb (value o1) Running) eqn:Hr.
  - apply Return_eqb_eq in Hr. left.
    rewrite (tick_running s w Hit Hnth Hnew Htick Hr) in E.
    injection E as <- <-. repeat split; assumption.
  - assert (Hv : value o1 <> Running)
      by (intros F; apply Return_eqb_eq in F; congruence).
    right. split; [exact Hv|].
    destruct (BehaviorElement.finalize (upd (store w) r x r)) as [[x' inner']|] eqn:Hfin.
    2:{ rewrite (tick_finalize_undefined s w Hit Hnth Hnew Htick Hv Hfin) in E.
        discriminate. }
    rewrite (tick_terminal s w Hit Hnth Hnew Htick Hv Hfin) in E.
    injection E as <- <-. split; [reflexivity|]. exists x', inner'. split; reflexivity.
Qed.

(** The active child made ready for its tick: initialized if it is new. *)
Lemma tick_prepares (s : SenseInfo) (w : World) i r o w' :
  m_iter (self w) = At i ->
  nth_error (m_elements (self w)) i = Some r ->
  tick s w = Some (o, w') ->
  exists w1 pre,
    tick s w1 = Some (o, w')
    /\ m_svcs (self w1) = m_svcs (self w)
    /\ m_elements (self w1) = m_elements (self w)
    /\ m_iter (self w1) = At i
    /\ m_new_element (self w1) = false
    /\ trace w1 = trace w ++ pre
    /\ (forall r', r' <> r -> store w1 r' = store w r')
    /\ (calls pre = [] \/ calls pre = [(Child i, Initialize)]).
Proof.
  intros Hit Hnth E. destruct (m_new_element (self w)) eqn:Hnew.
  - destruct (BehaviorElement.initialize (m_svcs (self w)) (store w r))
      as [[[meta x] inner]|] eqn:Hinit.
    2:{ rewrite (tick_initialize_undefined s w Hit Hnth Hnew Hinit) in E. discriminate. }
    rewrite (tick_new_element s w Hit Hnth Hnew Hinit) in E.
    eexists. eexists. split; [exact E|]. cbn [self store trace].
    destruct w as [[] ? ?]. cbn in *.
    split; [reflexivity|]. split; [reflexivity|]. split; [assumption|].
    split; [reflexivity|]. split; [reflexivity|]. split; [|right; reflexivity].
    intros r' Hr'. unfold upd. apply Nat.eqb_neq in Hr'. rewrite Hr'. reflexivity.
  - exists w, []. rewrite app_nil_r.
    split; [exact E|]. split; [reflexivity|]. split; [reflexivity|].
    split; [assumption|]. split; [assumption|]. split; [reflexivity|].
    split; [reflexivity | left; reflexivity].
Qed.

Lemma nth_error_in_bounds (A : Type) (l : list A) i :
  i <= List.length l -> i <> List.length l -> exists r, nth_error l i = Some r.
Proof.
  intros Hle Hne. destruct (nth_error l i) as [r|] eqn:E; [exists r; reflexivity|].
  apply nth_error_None in E. lia.
Qed.

(** X2: one tick of a sequence whose iterator is within its vector, on
    any children.  A tick that returns leaves the services and the vector
    of the sequence as they were, moves the iterator forward by at most
    one position and not past the end, only appends to the trace, and
    changes no object of the store other than the one behind the
    reference the iterator was at. *)
Theorem tick_touches_only_the_active_child :
  forall (s : SenseInfo) (w : World) (i : nat) (o : Outcome) (w' : World),
    m_iter (self w) = At i ->
    i <= List.length (m_elements (self w)) ->
    tick s w = Some (o, w') ->
    m_svcs (self w') = m_svcs (self w)
    /\ m_elements (self w') = m_elements (self w)
    /\ (exists j, m_iter (self w') = At j
                  /\ i <= j <= S i /\ j <= List.length (m_elements (self w)))
    /\ (exists tr, trace w' = trace w ++ tr)
    /\ (forall r', nth_error (m_elements (self w)) i <> Some r' ->
                   store w' r' = store w r').
Proof.
  intros s w i o w' Hit Hle E.
  destruct (Nat.eq_dec i (List.length (m_elements (self w)))) as [Hend | Hne].
  - rewrite tick_at_end in E by (rewrite Hit, Hend; reflexivity).
    injection E as <- <-. repeat split; try reflexivity.
    + exists i. repeat split; [exact Hit | lia | lia | lia].
    + exists []. rewrite app_nil_r. reflexivity.
  - destruct (nth_error_in_bounds _ Hle Hne) as [r Hnth].
    pose proof (nth_error_not_end _ _ Hnth) as Hlt. apply Nat.eqb_neq in Hlt.
    assert (Hlt' : S i <= List.length (m_elements (self w))) by lia.
    destruct (tick_prepares s w Hit Hnth E)
      as (w1 & pre & E1 & Hsv & Hel & Hit1 & Hnew1 & Htr1 & Hst1 & _).
    rewrite <- Hel in Hnth.
    destruct (tick_initialized_cases s w1 Hit1 Hnth Hnew1 E1)
      as (o1 & x & inner & Htick & [(Hv & -> & ->) | (Hv & -> & x' & inner' & Hfin & ->)]);
      cbn [self store trace]; rewrite Hel in Hnth.
    + repeat split; try assumption.
      * exists i. repeat split; [exact Hit1 | lia | lia | lia].
      * eexists. rewrite Htr1, <- app_assoc. reflexivity.
      * intros r' Hr'. assert (Hneq : r' <> r) by congruence.
        unfold upd. apply Nat.eqb_neq in Hneq. rewrite Hneq. apply Hst1.
        apply Nat.eqb_neq. exact Hneq.
    + destruct w1 as [[] ? ?]. cbn in *. repeat split; try assumption.
      * exists (S i). repeat split; [lia | lia | lia].
      * eexists. rewrite Htr1, <- app_assoc. reflexivity.
      * intros r' Hr'. assert (Hneq : r' <> r) by congruence.
        unfold upd. apply Nat.eqb_neq in Hneq. rewrite Hneq. apply Hst1.
        apply Nat.eqb_neq. exact Hneq.
Qed.

(** X3: the outcome of one tick of a sequence whose iterator is at a
    child, on any children.  A tick that returns has ticked that child
    exactly once and no other; the command it reports is the command that
    tick of the child returned; and the value it reports is [Running]
    when the child returned [Success] and is not the last, and the
    child's own value in every other case. *)
Theorem tick_reports_the_active_child :
  forall (s : SenseInfo) (w : World) (i : nat) (o : Outcome) (w' : World),
    m_iter (self w) = At i ->
    i < List.length (m_elements (self w)) ->
    tick s w = Some (o, w') ->
    exists o1 tr,
      trace w' = trace w ++ tr
      /\ filter (fun cm => match cm with (_, Tick _ _) => true | _ => false end)
                (calls tr)
         = [(Child i, Tick s o1)]
      /\ actuate o = actuate o1
      /\ value o
         = match value o1 with
           | Success =>
               if Nat.eqb (S i) (List.length (m_elements (self w)))
               then Success else Running
           | v => v
           end.
Proof.
  intros s w i o w' Hit Hlt E.
  destruct (@nth_error_in_bounds _ (m_elements (self w)) i) as [r Hnth]; [lia|lia|].
  destruct (tick_prepares s w Hit Hnth E)
    as (w1 & pre & E1 & Hsv & Hel & Hit1 & Hnew1 & Htr1 & Hst1 & Hpre).
  rewrite <- Hel in Hnth.
  assert (Hnotick :
    filter (fun cm : Callee * Method =>
              match cm with (_, Tick _ _) => true | _ => false end) (calls pre) = [])
    by (destruct Hpre as [-> | ->]; reflexivity).
  destruct (tick_initialized_cases s w1 Hit1 Hnth Hnew1 E1)
    as (o1 & x & inner & Htick & [(Hv & -> & ->) | (Hv & -> & x' & inner' & Hfin & ->)]);
    cbn [self store trace]; exists o1; eexists;
    (split; [rewrite Htr1, <- app_assoc; reflexivity|]);
    rewrite calls_app, filter_app, Hnotick; (split; [cbn; reflexivity|]).
  - split; [reflexivity|]. rewrite Hv. reflexivity.
  - rewrite forwarded_actuate. split; [reflexivity|].
    unfold forwarded. rewrite Hel.
    destruct (Nat.eqb (S i) (List.length (m_elements (self w))));
      destruct (value o1) eqn:Ho1; cbn; rewrite ?Ho1; try congruence;
      reflexivity.
Qed.

Lemma tick_self_facts (s : SenseInfo) (w : World) i o w' :
  m_iter (self w) = At i ->
  i <= List.length (m_elements (self w)) ->
  tick s w = Some (o, w') ->
  m_elements (self w') = m_elements (self w)
  /\ exists j, m_iter (self w') = At j
               /\ i <= j /\ j <= List.length (m_elements (self w)).
Proof.
  intros Hit Hle E.
  destruct (Nat.eq_dec i (List.length (m_elements (self w)))) as [Hend | Hne].
  - rewrite tick_at_end in E by (rewrite Hit, Hend; reflexivity).
    injection E as <- <-. split; [reflexivity|]. exists i. repeat split; [exact Hit|lia|lia].
  - destruct (nth_error_in_bounds _ Hle Hne) as [r Hnth].
    destruct (tick_prepares s w Hit Hnth E)
      as (w1 & pre & E1 & _ & Hel & Hit1 & Hnew1 & _).
    rewrite <- Hel in Hnth.
    destruct (tick_initialized_cases s w1 Hit1 Hnth Hnew1 E1)
      as (o1 & x & inner & _ & [(_ & _ & ->) | (_ & _ & x' & inner' & _ & ->)]);
      cbn [self].
    + split; [exact Hel|]. exists i. repeat split; [exact Hit1|lia|lia].
    + destruct w1 as [[] ? ?]. cbn in *. split; [exact Hel|].
      exists (S i). repeat split; lia.
Qed.

Section TotalChildren.
Hypothesis initialize_returns :
  forall svc (x : Obj), BehaviorElement.initialize svc x <> None.
Hypothesis tick_returns :
  forall s (x : Obj), BehaviorElement.tick s x <> None.
Hypothesis finalize_returns :
  forall (x : Obj), BehaviorElement.finalize x <> None.

Lemma tick_initialized_defined (s : SenseInfo) (w : World) i r :
  m_iter (self w) = At i ->
  nth_error (m_elements (self w)) i = Some r ->
  m_new_element (self w) = false ->
  tick s w <> None.
Proof.
  intros Hit Hnth Hnew.
  destruct (BehaviorElement.tick s (store w r)) as [[[o x] inner]|] eqn:Htick;
    [|destruct (tick_returns _ _ Htick)].
  destruct (Return_eqb (value o) Running) eqn:Hr.
  - apply Return_eqb_eq in Hr.
    rewrite (tick_running s w Hit Hnth Hnew Htick Hr). discriminate.
  - assert (Hv : value o <> Running)
      by (intros F; apply Return_eqb_eq in F; congruence).
    destruct (BehaviorElement.finalize (upd (store w) r x r)) as [[x' inner']|] eqn:Hfin;
      [|destruct (finalize_returns _ Hfin)].
    rewrite (tick_terminal s w Hit Hnth Hnew Htick Hv Hfin). discriminate.
Qed.

Lemma tick_defined (s : SenseInfo) (w : World) i :
  m_iter (self w) = At i ->
  i <= List.length (m_elements (self w)) ->
  tick s w <> None.
Proof.
  intros Hit Hle.
  destruct (Nat.eq_dec i (List.length (m_elements (self w)))) as [Hend | Hne].
  - rewrite tick_at_end by (rewrite Hit, Hend; reflexivity). discriminate.
  - destruct (nth_error_in_bounds _ Hle Hne) as [r Hnth].
    destruct (m_new_element (self w)) eqn:Hnew.
    + destruct (BehaviorElement.initialize (m_svcs (self w)) (store w r))
        as [[[meta x] inner]|] eqn:Hinit; [|destruct (initialize_returns _ _ Hinit)].
      rewrite (tick_new_element s w Hit Hnth Hnew Hinit).
      apply (@tick_initialized_defined s _ i r); destruct w as [[] ? ?]; cbn in *;
        assumption || reflexivity.
    + exact (tick_initialized_defined s w Hit Hnth Hnew).
Qed.

End TotalChildren.

(** X1: a sequence whose iterator is within its vector (as it is from
    [initialize] on), over children whose methods always return.  Ticked
    any number of times, with whatever inputs and whatever the children
    report, it returns an outcome on every tick: nothing it does with its
    iterator is undefined, before or after it has reported a terminal
    outcome.  The iterator never moves backwards and never passes the end
    of the vector, and the vector is never changed. *)
Theorem ticks_defined_on_returning_children :
  (forall svc (x : Obj), BehaviorElement.initialize svc x <> None) ->
  (forall s (x : Obj), BehaviorElement.tick s x <> None) ->
  (forall (x : Obj), BehaviorElement.finalize x <> None) ->
  forall (ss : list SenseInfo) (w : World) (i : nat),
    m_iter (self w) = At i ->
    i <= List.length (m_elements (self w)) ->
    exists outs w' j,
      ticks ss w = Some (outs, w')
      /\ List.length outs = List.length ss
      /\ m_elements (self w') = m_elements (self w)
      /\ m_iter (self w') = At j
      /\ i <= j /\ j <= List.length (m_elements (self w)).
Proof.
  intros Hi Ht Hf ss. induction ss as [|s ss IH]; intros w i Hit Hle.
  - exists [], w, i. repeat split; [exact Hit | lia | lia].
  - rewrite ticks_cons.
    destruct (tick s w) as [[o w1]|] eqn:E;
      [|destruct (tick_defined Hi Ht Hf s w Hit Hle E)].
    destruct (tick_self_facts s w Hit Hle E) as (Hel & j & Hit1 & Hij & Hjl).
    destruct (IH w1 j Hit1) as (outs & w' & k & E' & Hlen & Hel' & Hit' & Hjk & Hkl);
      [rewrite Hel; exact Hjl|].
    rewrite E'. exists (o :: outs), w', k. rewrite Hel in *.
    repeat split; try assumption; cbn; lia.
Qed.

End SequenceInvariants.

Section SequenceFurtherRuns.
Context {Obj : Type} `{BehaviorElement.t Obj}.

Import SequenceElement.

(** X4: every child but the last ends with [Success] and the last child
    ends with [Fail].  Ticked from [initialize] on over all the inputs,
    the sequence has run every child through its cycle, reports [Running]
    up to the last tick and on the last tick the very outcome of the last
    child, [Fail] with its command; its iterator is then at the end. *)
Theorem sequence_fails_with_its_last_child :
  forall (svc : Services) (el : Elements) (segs : list (list SenseInfo))
         (h : Store) (oss : list (list Outcome)) (h' : Store),
    children_cycles svc el segs h = Some (oss, h') ->
    cycles_end Fail oss = true ->
    exists outs w',
      ticks (List.concat segs) (started svc el h) = Some (outs, w')
      /\ ends_with Fail outs = true
      /\ last outs Outcome_default = last (List.concat oss) Outcome_default
      /\ calls (trace w') = cycles_calls 0 segs oss
      /\ store w' = h'
      /\ m_iter (self w') = At (List.length el).
Proof.
  intros svc el segs h oss h' Hcyc Hend.
  pose proof (children_cycles_length _ _ _ _ Hcyc) as Hlen.
  destruct (@ticks_cycles _ _ Fail el segs (started svc el h) oss h' [] [])
    as (w' & tr & E & _ & _ & Hit & _ & Hst & Htr & Hc); cbn;
    try assumption; try reflexivity; try discriminate.
  { rewrite app_nil_r. reflexivity. }
  cbn in E, Htr, Hit. exists (sequence_outcomes el 0 oss), w'.
  split; [exact E|]. split.
  { apply sequence_outcomes_end; [exact Hend | left; reflexivity | cbn; lia]. }
  split; [apply sequence_outcomes_last; exact Hend|].
  split; [rewrite Htr; exact Hc|]. split; assumption.
Qed.

(** X5: a sequence with a single child is transparent.  If the child,
    taken through one cycle on the inputs [ss], reports [Running] up to a
    last outcome that is terminal, then the sequence ticked from
    [initialize] on over [ss] reports exactly the outcomes of the child,
    the terminal one included ([Success] or [Fail] alike), and leaves the
    store as the child's cycle leaves it. *)
Theorem singleton_sequence_is_transparent :
  forall (svc : Services) (r : ref) (ss : list SenseInfo) (h : Store)
         (os : list Outcome) (h1 : Store) (t : Return),
    child_cycle svc r ss h = Some (os, h1) ->
    ends_with t os = true ->
    t <> Running ->
    exists w',
      ticks ss (started svc [r] h) = Some (os, w')
      /\ store w' = h1
      /\ calls (trace w') = cycle_calls 0 ss os.
Proof.
  intros svc r ss h os h1 t Hcyc Hend Ht.
  destruct (@ticks_cycle _ _ t 0 r ss (started svc [r] h) os h1)
    as (meta & tr & E & Hc); try assumption; try reflexivity.
  assert (Hkept : forward_last [r] 0 os = os).
  { clear - Hend. induction os as [|o os IH]; [reflexivity|].
    destruct os as [|o' os]; [reflexivity|].
    cbn [forward_last ends_with] in *. apply andb_prop in Hend as [_ Hend].
    f_equal. exact (IH Hend). }
  cbn [started self m_elements] in E. unfold initialize in E. cbn in E.
  rewrite Hkept in E. eexists. split; [exact E|]. split; [reflexivity|exact Hc].
Qed.

(** Two worlds that differ at most in the stale [m_meta] of a sequence
    about to initialize a child. *)
Lemma tick_ignores_stale_meta (s : SenseInfo) svcs el it meta1 meta2
    (h : Store) tr :
  let w1 := mkWorld (mk svcs el it true meta1) h tr in
  let w2 := mkWorld (mk svcs el it true meta2) h tr in
  match tick s w1, tick s w2 with
  | Some (o1, w1'), Some (o2, w2') =>
      o1 = o2
      /\ (w1' = w2'
          \/ (w1' = w1 /\ w2' = w2))
  | None, None => True
  | _, _ => False
  end.
Proof.
  intros w1 w2. destruct it as [|i]; [exact I|].
  destruct (nth_error el i) as [r|] eqn:Hnth.
  - destruct (BehaviorElement.initialize svcs (h r)) as [[[meta x] inner]|] eqn:Hinit.
    + rewrite (@tick_new_element _ _ s w1 i r meta x inner eq_refl Hnth eq_refl Hinit).
      rewrite (@tick_new_element _ _ s w2 i r meta x inner eq_refl Hnth eq_refl Hinit).
      subst w1 w2. cbn [self store trace set_m_meta set_m_new_element m_svcs
                        m_elements m_iter m_new_element m_meta].
      destruct (tick s _) as [[o w']|];
        [split; [reflexivity | left; reflexivity] | exact I].
    + rewrite (@tick_initialize_undefined _ _ s w1 i r eq_refl Hnth eq_refl Hinit).
      rewrite (@tick_initialize_undefined _ _ s w2 i r eq_refl Hnth eq_refl Hinit).
      exact I.
  - subst w1 w2.
    cbv beta iota delta
      [tick bind ret undefined get modify emit notify iter_not_at_end deref
       incr_iter call_initialize call_tick call_finalize].
    cbn [self store trace fst snd m_svcs m_elements m_iter m_new_element m_meta
         set_m_svcs set_m_iter set_m_new_element set_m_meta].
    destruct (Nat.eqb i (List.length el));
      repeat (progress (cbn -[upd Nat.eqb nth_error List.length]; rewrite ?Hnth)).
    + split; [reflexivity | right; split; reflexivity].
    + exact I.
Qed.

Lemma ticks_ignore_stale_meta ss : forall svcs el i meta1 meta2 (h : Store) tr,
  match ticks ss (mkWorld (mk svcs el (At i) true meta1) h tr),
        ticks ss (mkWorld (mk svcs el (At i) true meta2) h tr)
  with
  | Some (outs1, w1), Some (outs2, w2) =>
      outs1 = outs2
      /\ store w1 = store w2
      /\ trace w1 = trace w2
      /\ m_iter (self w1) = m_iter (self w2)
      /\ m_elements (self w1) = m_elements (self w2)
  | None, None => True
  | _, _ => False
  end.
Proof.
  induction ss as [|s ss IH]; intros svcs el i meta1 meta2 h tr.
  - cbn. repeat split.
  - rewrite !ticks_cons.
    pose proof (tick_ignores_stale_meta s svcs el (At i) meta1 meta2 h tr) as Hstep.
    cbv zeta in Hstep.
    destruct (tick s (mkWorld (mk svcs el (At i) true meta1) h tr)) as [[o1 w1]|];
      destruct (tick s (mkWorld (mk svcs el (At i) true meta2) h tr)) as [[o2 w2]|];
      try contradiction; [|exact I].
    destruct Hstep as [<- [<- | [-> ->]]].
    + destruct (ticks ss w1) as [[outs w']|]; [|exact I]. repeat split.
    + specialize (IH svcs el i meta1 meta2 h tr).
      destruct (ticks ss (mkWorld (mk svcs el (At i) true meta1) h tr)) as [[outs1 w1']|];
        destruct (ticks ss (mkWorld (mk svcs el (At i) true meta2) h tr)) as [[outs2 w2']|];
        try contradiction; [|exact I].
      destruct IH as (-> & Hs & Ht & Hi & He). repeat split; assumption.
Qed.

(** X6: [initialize] makes a sequence usable whatever state it is in.
    A sequence as its constructor leaves it cannot be ticked: its iterator
    belongs to the constructor's argument, and the tick is undefined.
    After [initialize], a sequence in any state (freshly constructed, in
    the middle of a run, or run to its end) behaves on every further input
    as a newly constructed one of the same children does after its own
    [initialize]: the same outcomes, the same store, the same trace and
    the same iterator, or undefined alike. *)
Theorem initialize_restarts_the_sequence :
  forall (svc : Services) (me : obj) (h : Store) (tr : list Event)
         (ss : list SenseInfo),
    (forall s, tick s (mkWorld (construct (m_elements me)) h tr) = None)
    /\ match ticks ss (mkWorld (snd (initialize svc me)) h tr),
             ticks ss (mkWorld
                         (snd (initialize svc (construct (m_elements me)))) h tr)
       with
       | Some (outs1, w1), Some (outs2, w2) =>
           outs1 = outs2
           /\ store w1 = store w2
           /\ trace w1 = trace w2
           /\ m_iter (self w1) = m_iter (self w2)
           /\ m_elements (self w1) = m_elements (self w2)
       | None, None => True
       | _, _ => False
       end.
Proof.
  intros svc me h tr ss. split; [reflexivity|].
  destruct me as [svcs0 el it0 new0 meta0].
  exact (ticks_ignore_stale_meta ss svc el 0 meta0 ElementMeta_default h tr).
Qed.

End SequenceFurtherRuns.

(* ===================================================================== *)
(** * Leaves over many cycles                                             *)
(* ===================================================================== *)

Section LeafMasks.
Context {D : Type} `{MotionElement.Derived D}.

Lemma leaf_cycle_mask_ops svc ss (me : MotionElement.obj D) :
  mask_ops (snd (leaf_cycle svc ss me))
  = [(true, MotionElement.get_reaction_defs);
     (false, MotionElement.get_reaction_defs)].
Proof.
  unfold leaf_cycle, MotionElement.initialize.
  cbn [MotionElement.derived MotionElement.m_services MotionElement.m_first_tick].
  destruct (MotionElement.motion_element_initialize _) as [[meta d] inner].
  set (me1 := MotionElement.mk _ _ _).
  pose proof (leaf_ticks_mask_ops ss me1) as Ht.
  destruct (leaf_ticks ss me1) as [[os me2] tr1].
  unfold MotionElement.finalize.
  destruct (MotionElement.motion_element_finalize _) as [d' inner'].
  cbn in *. rewrite mask_ops_app, Ht. reflexivity.
Qed.

End LeafMasks.

(** X7: the mask of a leaf built on the adapter encodes exactly its two
    flags: bit 0 is set if and only if the knee-jerk reaction is enabled,
    bit 1 if and only if the flinch reaction is enabled, and no other bit
    is ever set, so that the mask is one of 0, 1, 2 and 3.  For [Stop],
    which enables both, it is 3. *)
Theorem reaction_mask_decodes :
  forall (D : Type) (L : MotionElement.Derived D),
    let mask := MotionElement.get_reaction_defs (D := D) in
    Z.testbit mask 0 = enabled MotionElement.KNEE_JERK_REACTION
    /\ Z.testbit mask 1 = enabled MotionElement.FLINCH_REACTION
    /\ (forall n, (2 <= n)%Z -> Z.testbit mask n = false)
    /\ (0 <= mask < 4)%Z
    /\ MotionElement.get_reaction_defs (D := Stop.t) = 3%Z.
Proof.
  intros D L mask. subst mask. unfold MotionElement.get_reaction_defs.
  pose proof MotionElement.KNEE_JERK_REACTION_specified as Hk.
  pose proof MotionElement.FLINCH_REACTION_specified as Hf.
  assert (Hhigh : forall m n, (0 <= m < 4)%Z -> (2 <= n)%Z -> Z.testbit m n = false).
  { intros m n Hm Hn. destruct (Z.eq_dec m 0) as [-> | Hz]; [apply Z.testbit_0_l|].
    apply Z.bits_above_log2; [lia|].
    assert (Z.log2 m < 2)%Z; [|lia]. apply Z.log2_lt_pow2; lia. }
  destruct MotionElement.KNEE_JERK_REACTION, MotionElement.FLINCH_REACTION;
    try congruence; cbn;
    (split; [reflexivity|]); (split; [reflexivity|]);
    (split; [intros n Hn; apply Hhigh; lia|]); (split; [lia|reflexivity]).
Qed.

(** X8: a leaf built on the adapter taken through any number of cycles,
    whatever it is ticked with.  The adapter's calls to the reaction
    service are, cycle after cycle, one [activate] followed by one
    [release] of the same mask: every mask activated is released before
    the next is activated, and none is left active at the end. *)
Theorem reaction_masks_are_balanced :
  forall (D : Type) (L : MotionElement.Derived D) (svc : Services)
         (css : list (list SenseInfo)) (me : MotionElement.obj D),
    mask_ops (snd (leaf_cycles svc css me))
    = flat_map (fun _ => [(true, MotionElement.get_reaction_defs (D := D));
                          (false, MotionElement.get_reaction_defs (D := D))])
               css.
Proof.
  intros D L svc css. induction css as [|ss css IH]; intros me; [reflexivity|].
  cbn [leaf_cycles flat_map].
  pose proof (leaf_cycle_mask_ops svc ss me) as Hc.
  destruct (leaf_cycle svc ss me) as [[os me1] tr]. specialize (IH me1).
  destruct (leaf_cycles svc css me1) as [[oss me2] tr']. cbn in *.
  rewrite mask_ops_app, Hc, IH. reflexivity.
Qed.

(* ===================================================================== *)
(** * WalkToPosition over its cycles                                      *)
(* ===================================================================== *)

(** A walk past its first tick, ticked on: the state stays, the decisions
    are all taken with the latched time stamp. *)
Lemma walk_leaf_ticks_latched d svc ss :
  fst (leaf_ticks ss (MotionElement.mk d svc false))
  = (map (walk_outcome d) ss, MotionElement.mk d svc false).
Proof.
  induction ss as [|s ss IH]; [reflexivity|].
  cbn [leaf_ticks]. unfold MotionElement.tick.
  cbn [MotionElement.m_first_tick MotionElement.derived MotionElement.m_services
       MotionElement.motion_element_tick WalkToPosition.derived].
  pose proof (walk_tick_keeps_state d s) as Hk. cbn [map].
  change (walk_outcome d s)
    with (fst (fst (WalkToPosition.motion_element_tick d s))).
  destruct (WalkToPosition.motion_element_tick d s) as [[o d'] inner].
  cbn in Hk. subst d'. cbn [fst snd].
  destruct (leaf_ticks ss (MotionElement.mk d svc false)) as [[os me'] tr'].
  cbn in *. injection IH as -> ->. reflexivity.
Qed.

Lemma walk_leaf_cycle svc ss (me : MotionElement.obj WalkToPosition.t) :
  let goal := WalkToPosition.goal_x (MotionElement.derived me) in
  fst (fst (leaf_cycle svc ss me)) = walk_cycle_outcomes goal ss
  /\ WalkToPosition.goal_x
       (MotionElement.derived (snd (fst (leaf_cycle svc ss me)))) = goal.
Proof.
  destruct me as [[goal t0] svc0 ft]. cbn zeta.
  cbn [MotionElement.derived WalkToPosition.goal_x].
  unfold leaf_cycle, MotionElement.initialize.
  cbn [MotionElement.m_first_tick MotionElement.derived MotionElement.m_services
       MotionElement.motion_element_initialize WalkToPosition.derived
       MotionElement.default_motion_element_initialize].
  destruct ss as [|s1 ss].
  - cbn. split; reflexivity.
  - cbn [leaf_ticks]. unfold MotionElement.tick.
    cbn [MotionElement.m_first_tick MotionElement.derived MotionElement.m_services
         MotionElement.motion_element_tick
         MotionElement.motion_element_data_initialize WalkToPosition.derived
         WalkToPosition.motion_element_data_initialize WalkToPosition.goal_x].
    set (d := WalkToPosition.mk goal (ts s1)).
    pose proof (walk_tick_keeps_state d s1) as Hk.
    unfold walk_cycle_outcomes. cbn [map ts]. fold d.
    change (walk_outcome d s1)
      with (fst (fst (WalkToPosition.motion_element_tick d s1))).
    destruct (WalkToPosition.motion_element_tick d s1) as [[o d'] inner].
    cbn in Hk. subst d'.
    pose proof (walk_leaf_ticks_latched d svc ss) as Hl.
    destruct (leaf_ticks ss (MotionElement.mk d svc false)) as [[os me'] tr'].
    cbn in Hl. injection Hl as -> ->. cbn. split; reflexivity.
Qed.

(** X9: a [WalkToPosition] taken through any number of cycles on the same
    object, whatever state the object starts in.  The goal given at
    construction is never changed, and the outcomes of each cycle depend
    on nothing but the goal and the inputs of that cycle: they are the
    decisions taken with the time stamp of the first input of the cycle
    latched.  In particular the timeout of a cycle runs from its own first
    tick, not from construction, from [initialize] or from an earlier
    cycle. *)
Theorem walk_cycles_are_independent :
  forall (svc : Services) (css : list (list SenseInfo))
         (me : MotionElement.obj WalkToPosition.t),
    let goal := WalkToPosition.goal_x (MotionElement.derived me) in
    fst (fst (leaf_cycles svc css me)) = map (walk_cycle_outcomes goal) css
    /\ WalkToPosition.goal_x
         (MotionElement.derived (snd (fst (leaf_cycles svc css me)))) = goal.
Proof.
  intros svc css. induction css as [|ss css IH]; intros me; [split; reflexivity|].
  cbn zeta in *. cbn [leaf_cycles].
  destruct (walk_leaf_cycle svc ss me) as [Ho Hg]. cbn zeta in Ho, Hg.
  destruct (leaf_cycle svc ss me) as [[os me1] tr]. cbn [fst snd] in Ho, Hg.
  destruct (IH me1) as [IHo IHg].
  destruct (leaf_cycles svc css me1) as [[oss me2] tr']. cbn [fst snd map] in *.
  rewrite Ho, IHo, IHg, Hg. split; reflexivity.
Qed.

(** X10: the decision of [WalkToPosition] on any input.  It is [Success]
    exactly when the distance to the goal is below the threshold, also
    past the timeout and while knee-jerking.  It is [Fail] exactly when
    the goal is not reached and strictly more than the timeout has
    elapsed since the latched time stamp: at exactly the timeout the walk
    is not failed.  A terminal outcome, and any outcome while not
    knee-jerking, carries the walking command: +1 when the goal is not
    behind, -1 otherwise.  The state of the walk is not changed.  The
    time elapsed is the difference of the two stamps as the code computes
    it, in 64 bits; when the difference of the stamps fits 64 bits, this
    is their plain difference. *)
Theorem walk_decision :
  forall (me : WalkToPosition.t) (s : SenseInfo),
    let dist := (WalkToPosition.goal_x me - measured_x s)%float in
    let reached := (abs dist <? WalkToPosition.GOAL_THRESHOLD)%float in
    let o := walk_outcome me s in
    (value o = Success <-> reached = true)
    /\ (value o = Fail
        <-> reached = false
            /\ (time_point_sub (ts s) (WalkToPosition.init_ts me) > WalkToPosition.TIMEOUT)%Z)
    /\ (value o <> Running \/ is_knee_jerking s = false ->
        velocity (actuate o) = if (0 <=? dist)%float then 1%float else (-1)%float)
    /\ snd (fst (WalkToPosition.motion_element_tick me s)) = me
    /\ ((- 2 ^ 63 <= ts s - WalkToPosition.init_ts me < 2 ^ 63)%Z ->
        (value o = Fail
         <-> reached = false
             /\ (ts s - WalkToPosition.init_ts me > WalkToPosition.TIMEOUT)%Z)).
Proof.
  intros me s dist reached o.
  assert (Hmain :
    (value o = Success <-> reached = true)
    /\ (value o = Fail
        <-> reached = false
            /\ (time_point_sub (ts s) (WalkToPosition.init_ts me)
                > WalkToPosition.TIMEOUT)%Z)
    /\ (value o <> Running \/ is_knee_jerking s = false ->
        velocity (actuate o) = if (0 <=? dist)%float then 1%float else (-1)%float)
    /\ snd (fst (WalkToPosition.motion_element_tick me s)) = me).
  { subst o reached dist.
    unfold walk_outcome, WalkToPosition.motion_element_tick.
    destruct (abs _ <? _)%float;
      [cbn; intuition (try congruence; try reflexivity)|].
    destruct (time_point_sub (ts s) (WalkToPosition.init_ts me)
              >? WalkToPosition.TIMEOUT)%Z eqn:Hlate.
    { apply Z.gtb_gt in Hlate. cbn -[WalkToPosition.TIMEOUT time_point_sub].
      intuition (try congruence; try reflexivity). }
    assert (Hnot : ~ (time_point_sub (ts s) (WalkToPosition.init_ts me)
                      > WalkToPosition.TIMEOUT)%Z).
    { intros F. apply Z.gtb_gt in F. congruence. }
    destruct (is_knee_jerking s); cbn -[WalkToPosition.TIMEOUT time_point_sub];
      intuition (try congruence; try reflexivity). }
  destruct Hmain as (HS & HF & HV & HK).
  split; [exact HS|]. split; [exact HF|]. split; [exact HV|]. split; [exact HK|].
  intros Hfit. rewrite <- (time_point_sub_exact _ _ Hfit). exact HF.
Qed.

(** Two stamps too far apart for a 64-bit difference: the difference
    wraps, and the decision follows the wrapped difference.  From the
    stamp -2 to the largest stamp the difference wraps to a negative
    count and the walk keeps running; from the largest stamp to -2 it
    wraps to the largest count and the walk fails by timeout, also while
    knee-jerking. *)
Example walk_on_stamps_too_far_apart :
  time_point_sub (2 ^ 63 - 1) (-2) = (- 2 ^ 63 + 1)%Z
  /\ walk_outcome (WalkToPosition.mk 4 (-2))
                  (mkSenseInfo 0 0 false false (2 ^ 63 - 1))
     = mkOutcome Running (mkActuateCmd 1)
  /\ time_point_sub (-2) (2 ^ 63 - 1) = (2 ^ 63 - 1)%Z
  /\ walk_outcome (WalkToPosition.mk 4 (2 ^ 63 - 1))
                  (mkSenseInfo 0 0 false true (-2))
     = mkOutcome Fail (mkActuateCmd 1).
Proof. repeat split; vm_compute; reflexivity. Qed.

Lemma float_nan_spec (x : float) : is_nan x = true -> Prim2SF x = S754_nan.
Proof.
  unfold is_nan. rewrite eqb_spec. unfold SFeqb.
  destruct (Prim2SF x) as [sx|sx| |sx mx ex]; cbn; try reflexivity.
  - discriminate.
  - destruct sx; discriminate.
  - rewrite Z.compare_refl, Pos.compare_cont_refl. destruct sx; discriminate.
Qed.

(** X11: [WalkToPosition] on a position reading that is not a number.
    The goal test fails, so the walk never reports [Success] on such an
    input; it fails only by timeout (more than the timeout elapsed as
    the code computes it, in 64 bits, which for stamps whose difference
    fits 64 bits is their plain difference); and as long as no reflex
    holds it still, the command it returns is -1, whatever the goal. *)
Theorem walk_on_nan_position :
  forall (me : WalkToPosition.t) (s : SenseInfo),
    is_nan (measured_x s) = true ->
    let o := walk_outcome me s in
    value o <> Success
    /\ (value o = Fail
        <-> (time_point_sub (ts s) (WalkToPosition.init_ts me) > WalkToPosition.TIMEOUT)%Z)
    /\ (value o <> Running \/ is_knee_jerking s = false ->
        velocity (actuate o) = (-1)%float)
    /\ ((- 2 ^ 63 <= ts s - WalkToPosition.init_ts me < 2 ^ 63)%Z ->
        (value o = Fail
         <-> (ts s - WalkToPosition.init_ts me > WalkToPosition.TIMEOUT)%Z)).
Proof.
  intros me s Hnan o. subst o. apply float_nan_spec in Hnan.
  rewrite <- and_assoc, <- and_assoc.
  match goal with |- ?A /\ (?H -> ?B) => assert (Hmain : A) end.
  2:{ split; [exact Hmain|]. intros Hfit.
      rewrite <- (time_point_sub_exact _ _ Hfit). apply Hmain. }
  rewrite and_assoc.
  assert (Hd : Prim2SF (WalkToPosition.goal_x me - measured_x s) = S754_nan).
  { rewrite sub_spec, Hnan. unfold SF64sub, SFsub.
    destruct (Prim2SF (WalkToPosition.goal_x me)); reflexivity. }
  assert (Hreach : (abs (WalkToPosition.goal_x me - measured_x s)
                    <? WalkToPosition.GOAL_THRESHOLD)%float = false).
  { rewrite ltb_spec, abs_spec, Hd. reflexivity. }
  assert (Hdir : (0 <=? WalkToPosition.goal_x me - measured_x s)%float = false).
  { rewrite leb_spec, Hd. unfold SFleb, SFcompare.
    destruct (Prim2SF 0); reflexivity. }
  unfold walk_outcome, WalkToPosition.motion_element_tick. rewrite Hreach, Hdir.
  destruct (time_point_sub (ts s) (WalkToPosition.init_ts me) >? WalkToPosition.TIMEOUT)%Z eqn:Hlate.
  { apply Z.gtb_gt in Hlate. cbn -[WalkToPosition.TIMEOUT time_point_sub].
    intuition (try congruence; try reflexivity). }
  assert (Hnot : ~ (time_point_sub (ts s) (WalkToPosition.init_ts me) > WalkToPosition.TIMEOUT)%Z).
  { intros F. apply Z.gtb_gt in F. congruence. }
  destruct (is_knee_jerking s); cbn -[WalkToPosition.TIMEOUT time_point_sub];
    intuition (try congruence; try reflexivity).
Qed.

Lemma walk_on_nan_position_witness :
  let s := mkSenseInfo 0 nan false false 0 in
  value (walk_outcome (WalkToPosition.construct 4%float) s) <> Success
  /\ velocity (actuate (walk_outcome (WalkToPosition.construct 4%float) s))
     = (-1)%float.
Proof.
  intros s.
  destruct (@walk_on_nan_position (WalkToPosition.construct 4%float) s eq_refl)
    as (Hs & _ & Hv & _).
  split; [exact Hs|]. apply Hv. right. reflexivity.
Defined.

(* ===================================================================== *)
(** * The executor and what it drives                                     *)
(* ===================================================================== *)

Section ExecutorFeeds.
Context {T : Type} `{BehaviorElement.t T}.
Variable now : nat -> time_point.

Import Executor.

Lemma root_ticks_app (a b : list Event) :
  root_ticks (a ++ b) = root_ticks a ++ root_ticks b.
Proof.
  induction a as [|e a IH]; [reflexivity|].
  destruct e as [| | |c m inner]; cbn; try exact IH.
  destruct c, m; cbn; rewrite ?IH; reflexivity.
Qed.

(** The ticks of a loop that returns, as the executor feeds them. *)
Lemma loop_feeds fuel meta : forall (f f' : Frame),
  loop now fuel meta f = Returned f' ->
  exists front s,
    root_ticks (trace f') = root_ticks (trace f) ++ front ++ [(s, out f')]
    /\ Forall (fun so => value (snd so) = Running) front
    /\ value (out f') <> Running
    /\ fed now (sense f) (readings f) (front ++ [(s, out f')])
    /\ readings f' = readings f + S (List.length front).
Proof.
  induction fuel as [|fuel IH]; intros f f' E; [discriminate|].
  cbn [loop] in E. destruct (body now meta f) as [f1|] eqn:Eb; [|discriminate].
  unfold body in Eb.
  destruct (BehaviorElement.tick _ (element f)) as [[[o el] inner]|]; [|discriminate].
  injection Eb as <-. cbn [out] in E.
  destruct (Return_eqb (value o) Running) eqn:Hr.
  - apply Return_eqb_eq in Hr.
    destruct (IH _ _ E) as (front & s & Hrt & Hrun & Hterm & Hfed & Hk).
    cbn [trace sense readings] in Hrt, Hfed, Hk.
    exists ((set_ts (now (readings f)) (sense f), o) :: front), s.
    split; [|split; [|split; [exact Hterm|split]]].
    + rewrite Hrt, !root_ticks_app. cbn. rewrite ?app_nil_r, <- ?app_assoc.
      reflexivity.
    + constructor; [exact Hr|exact Hrun].
    + cbn [app fed]. split; [reflexivity|exact Hfed].
    + rewrite Hk. cbn. lia.
  - injection E as <-. cbn [trace out sense readings].
    exists [], (set_ts (now (readings f)) (sense f)).
    split; [|split; [constructor|split; [|split]]].
    + rewrite !root_ticks_app. cbn. rewrite ?app_nil_r. reflexivity.
    + intros F. apply Return_eqb_eq in F. congruence.
    + cbn. split; [reflexivity|exact I].
    + cbn. lia.
Qed.

Lemma fed_reads_the_clock s0 ticked : forall k,
  fed now s0 k ticked ->
  map (fun so => ts (fst so)) ticked = map now (seq k (List.length ticked))
  /\ Forall (fun so => is_flinching (fst so) = is_flinching s0
                       /\ is_knee_jerking (fst so) = is_knee_jerking s0) ticked.
Proof.
  revert s0. induction ticked as [|[s o] ticked IH]; intros s0 k Hfed.
  - split; [reflexivity|constructor].
  - cbn [fed] in Hfed. destruct Hfed as [-> Hfed].
    destruct (IH _ _ Hfed) as [Hts Hfl]. cbn [map List.length seq fst].
    split; [f_equal; exact Hts|]. constructor; [split; reflexivity|].
    exact Hfl.
Qed.

(** X13: what the executor feeds its element, whatever the element is.
    When [run] returns, the sense inputs of the ticks it has made are
    determined by the commands the element returned: the first input is
    position 0 and velocity 0, each later input has the velocity commanded
    on the tick before and the position moved by that velocity over
    100 ms; tick number k is stamped with clock reading number k; both
    reflex flags are false on every input; every outcome but the last is
    [Running], and the last one is the outcome [run] ends with. *)
Theorem executor_feeds_back_the_commands :
  forall (fuel : nat) (el : T) (g : Frame),
    run now fuel el = Returned g ->
    let ticked := root_ticks (trace g) in
    fed now SenseInfo_default 1 ticked
    /\ map (fun so => ts (fst so)) ticked = map now (seq 1 (List.length ticked))
    /\ Forall (fun so => is_flinching (fst so) = false
                         /\ is_knee_jerking (fst so) = false) ticked
    /\ (exists front s, ticked = front ++ [(s, out g)]
                        /\ Forall (fun so => value (snd so) = Running) front)
    /\ value (out g) <> Running
    /\ readings g = S (List.length ticked).
Proof.
  intros fuel el g E ticked. unfold run in E. cbv zeta in E.
  destruct (BehaviorElement.initialize Services_default el)
    as [[[meta el0] inner0]|]; [|discriminate].
  change (loop now fuel meta _)
    with (loop now fuel meta (entry now meta el0 inner0)) in E.
  destruct (loop now fuel meta (entry now meta el0 inner0)) as [last| |] eqn:El;
    try discriminate.
  destruct (BehaviorElement.finalize (element last)) as [[elg inner]|];
    [|discriminate].
  injection E as <-. subst ticked. cbn [trace out readings].
  destruct (loop_feeds _ _ _ El) as (front & s & Hrt & Hrun & Hterm & Hfed & Hk).
  rewrite root_ticks_app, Hrt. cbn [entry trace root_ticks app sense readings] in *.
  rewrite app_nil_r.
  assert (Hfed' : fed now SenseInfo_default 1 (front ++ [(s, out last)])).
  { destruct front as [|[s1 o1] front]; exact Hfed. }
  destruct fed_reads_the_clock with (1 := Hfed') as [Hts Hfl].
  split; [exact Hfed'|]. split; [exact Hts|]. split; [exact Hfl|].
  split; [exists front, s; split; [reflexivity|exact Hrun]|].
  split; [exact Hterm|]. rewrite Hk, length_app. cbn. lia.
Qed.

End ExecutorFeeds.

Lemma executor_feeds_back_the_commands_witness :
  exists g,
    Main.main every_100ms 42 = Executor.Returned g
    /\ Executor.readings g = S (List.length (root_ticks (Executor.trace g)))
    /\ value (Executor.out g) <> Running.
Proof.
  unfold Main.main.
  destruct (Executor.run every_100ms 42 (Main.sequence, Main.objects 4%float))
    as [g| |] eqn:E;
    [|vm_compute in E; discriminate|vm_compute in E; discriminate].
  exists g. split; [reflexivity|].
  destruct (executor_feeds_back_the_commands every_100ms 42 _ E)
    as (_ & _ & _ & _ & Hterm & Hk).
  split; assumption.
Defined.

(** X12: [Stop] in the loop of the executor, entered in any state and with
    any sense data.  The loop returns after one or two executions of its
    body, with [Success] and velocity 0: [Stop] commands velocity 0, the
    executor reports the commanded velocity as measured on the next tick,
    and a measured velocity of 0 is within the machine epsilon. *)
Theorem stop_finishes_within_two_iterations :
  forall (now : nat -> time_point) (meta : ElementMeta)
         (f : Executor.Frame (T := MotionElement.obj Stop.t)) (e : nat),
    exists f',
      Executor.loop now (2 + e) meta f = Executor.Returned f'
      /\ Executor.out f' = mkOutcome Success (mkActuateCmd 0%float)
      /\ (Executor.readings f' = S (Executor.readings f)
          \/ (Executor.readings f' = S (S (Executor.readings f))
              /\ (abs (measured_velocity (Executor.sense f)) <=? Stop.epsilon)%float
                 = false
              /\ measured_velocity (Executor.sense f') = 0%float)).
Proof.
  intros now meta [[d svc ft] o s k tr] e. cbn [Nat.add Executor.loop].
  unfold Executor.body at 1.
  cbn [Executor.element Executor.sense Executor.readings Executor.trace
       BehaviorElement.tick MotionElement.behavior].
  unfold MotionElement.tick.
  cbn [MotionElement.m_first_tick MotionElement.derived MotionElement.m_services
       MotionElement.motion_element_tick MotionElement.motion_element_data_initialize
       Stop.derived MotionElement.default_motion_element_data_initialize].
  unfold Stop.motion_element_tick. cbn [measured_velocity set_ts].
  destruct (abs (measured_velocity s) <=? Stop.epsilon)%float eqn:Hz.
  - destruct ft; cbn; eexists; (split; [reflexivity|]);
      (split; [reflexivity|left; reflexivity]).
  - destruct ft; cbn; eexists; (split; [reflexivity|]);
      (split; [reflexivity|right; repeat split; reflexivity]).
Qed.

Section ExecutorOnEmptySequence.
Context {Obj : Type} `{BehaviorElement.t Obj}.

(** X14: the executor on a sequence without children, for any store, any
    clock and any fuel but none.  [run] returns after a single tick with
    [Fail] and velocity 0; it has called [initialize], [tick] once and
    [finalize], nothing was called inside the tick, and the simulated
    position and velocity are still 0. *)
Theorem executor_on_empty_sequence :
  forall (now : nat -> time_point) (h : SequenceElement.Store) (e : nat),
    exists g,
      Executor.run now (S e) (SequenceElement.construct [], h) = Executor.Returned g
      /\ Executor.out g = mkOutcome Fail (mkActuateCmd 0%float)
      /\ calls (Executor.trace g)
         = [(Root, Initialize);
            (Root, Tick (set_ts (now 1) SenseInfo_default)
                        (mkOutcome Fail (mkActuateCmd 0%float)));
            (Root, Finalize)]
      /\ inside_root_ticks (Executor.trace g) = []
      /\ snd (Executor.element g) = h
      /\ measured_x (Executor.sense g) = 0%float
      /\ measured_velocity (Executor.sense g) = 0%float.
Proof.
  intros now h e. eexists. split; [reflexivity|]. cbn.
  repeat split; reflexivity.
Qed.

End ExecutorOnEmptySequence.

(* ===================================================================== *)
(** * main on every clock                                                 *)
(* ===================================================================== *)

Section MainOnEveryClock.
Variable now : nat -> time_point.

Import Executor.

Lemma not_late (a b : Z) : (a >? b)%Z = false -> (a <= b)%Z.
Proof. rewrite Z.gtb_ltb. intros E. apply Z.ltb_ge. exact E. Qed.

Lemma loop_step (T : Type) (B : BehaviorElement.t T) fuel meta
    (f f' : Frame (T := T)) :
  body now meta f = Some f' ->
  loop now (S fuel) meta f
  = if Return_eqb (value (out f')) Running then loop now fuel meta f'
    else Returned f'.
Proof. intros E. cbn [loop]. rewrite E. reflexivity. Qed.

(** Evaluate the body on the frame at hand, with the timeout test of the
    walk settled by [Hk]. *)
Ltac eval_body_by Hk :=
  lazy -[Z.gtb time_point_sub WalkToPosition.TIMEOUT];
  rewrite ?time_point_sub_diag, ?Hk;
  lazy -[Z.gtb time_point_sub WalkToPosition.TIMEOUT];
  reflexivity.

Ltac iteration_by Hk :=
  erewrite loop_step; [| eval_body_by Hk ]; cbn [out value Return_eqb].

Ltac earlier_on_time :=
  let j := fresh "j" in
  let Hj := fresh "Hj" in
  intros j Hj;
  do 40 (destruct j as [|j]; [first [lia | apply not_late; assumption]|]);
  lia.

Ltac late_branch k Hk :=
  iteration_by Hk;
  lazy -[Z.gtb time_point_sub WalkToPosition.TIMEOUT main_verdict];
  right; split; [reflexivity|];
  exists k; split; [lia|]; split; [reflexivity|];
  split; [apply Z.gtb_gt; exact Hk|];
  split; [earlier_on_time | vm_compute; repeat constructor].

Ltac split_at k :=
  let Hk := fresh "Hlate" in
  destruct (time_point_sub (now k) (now 1) >? WalkToPosition.TIMEOUT)%Z eqn:Hk;
  [ late_branch k Hk | iteration_by Hk ].

Lemma main_verdict_holds e :
  match Main.main now (42 + e) with
  | Returned g => main_verdict now g
  | _ => False
  end.
Proof.
  unfold Main.main, run. cbv zeta.
  lazy [BehaviorElement.initialize SequenceElement.behavior
        SequenceElement.initialize fst snd name].
  cbn [Nat.add].
  assert (H1 : True) by exact I.
  iteration_by H1.
  split_at 2.
  split_at 3.
  split_at 4.
  split_at 5.
  split_at 6.
  split_at 7.
  split_at 8.
  split_at 9.
  split_at 10.
  split_at 11.
  split_at 12.
  split_at 13.
  split_at 14.
  split_at 15.
  split_at 16.
  split_at 17.
  split_at 18.
  split_at 19.
  split_at 20.
  split_at 21.
  split_at 22.
  split_at 23.
  split_at 24.
  split_at 25.
  split_at 26.
  split_at 27.
  split_at 28.
  split_at 29.
  split_at 30.
  split_at 31.
  split_at 32.
  split_at 33.
  split_at 34.
  split_at 35.
  split_at 36.
  split_at 37.
  split_at 38.
  split_at 39.
  iteration_by H1. iteration_by H1. iteration_by H1.
  lazy -[Z.gtb time_point_sub WalkToPosition.TIMEOUT main_verdict].
  left. split; [reflexivity|]. split; [reflexivity|]. earlier_on_time.
Qed.

(** X15: [main] on every clock.  Given fuel for 42 iterations, the run
    returns, after at most 42 ticks.  It ends with [Success] after
    exactly 42 ticks if, on each of the ticks 2 to 39, at most the timeout
    has elapsed since the first tick; otherwise it ends with [Fail] and
    velocity +1 on the first of these ticks that is late, and then every
    call the sequence has made went to the walk: [Stop] was never
    initialized or ticked. *)
Theorem main_returns_on_every_clock :
  forall fuel,
    42 <= fuel ->
    exists g,
      Main.main now fuel = Returned g
      /\ readings g <= 43
      /\ main_verdict now g.
Proof.
  intros fuel Hfuel. replace fuel with (42 + (fuel - 42)) by lia.
  pose proof (main_verdict_holds (fuel - 42)) as Hv.
  destruct (Main.main now (42 + (fuel - 42))) as [g| |]; try contradiction.
  exists g. split; [reflexivity|]. split; [|exact Hv].
  destruct Hv as [(_ & -> & _) | (_ & k & Hk & -> & _)]; lia.
Qed.

End MainOnEveryClock.

(* ===================================================================== *)
(** * Instances on the objects of main                                    *)
(* ===================================================================== *)

Lemma leaf_initialize_returns svc (x : Main.Leaf) :
  BehaviorElement.initialize svc x <> None.
Proof.
  destruct x as [y | y]; cbn;
    destruct (MotionElement.initialize svc y) as [[meta y'] tr]; discriminate.
Qed.

Lemma leaf_tick_returns s (x : Main.Leaf) : BehaviorElement.tick s x <> None.
Proof.
  destruct x as [y | y]; cbn;
    destruct (MotionElement.tick s y) as [[o y'] tr]; discriminate.
Qed.

Lemma leaf_finalize_returns (x : Main.Leaf) : BehaviorElement.finalize x <> None.
Proof.
  destruct x as [y | y]; cbn;
    destruct (MotionElement.finalize y) as [y' tr]; discriminate.
Qed.

Lemma ticks_defined_on_returning_children_witness :
  exists outs w' j,
    SequenceElement.ticks
      [SenseInfo_default; SenseInfo_default; SenseInfo_default]
      (started Services_default [Main.walk; Main.stop] (Main.objects 4%float))
    = Some (outs, w')
    /\ List.length outs = 3
    /\ SequenceElement.m_iter (SequenceElement.self w') = SequenceElement.At j
    /\ j <= 2.
Proof.
  destruct (@ticks_defined_on_returning_children Main.Leaf _
              leaf_initialize_returns leaf_tick_returns leaf_finalize_returns
              [SenseInfo_default; SenseInfo_default; SenseInfo_default]
              (started Services_default [Main.walk; Main.stop]
                       (Main.objects 4%float))
              0 eq_refl (Nat.le_0_l _))
    as (outs & w' & j & E & Hl & _ & Hit & _ & Hj).
  exists outs, w', j. repeat split; assumption.
Defined.

Lemma tick_touches_only_the_active_child_witness :
  match SequenceElement.tick SenseInfo_default
          (started Services_default [Main.walk; Main.stop] (Main.objects 4%float))
  with
  | Some (o, w') =>
      SequenceElement.m_elements (SequenceElement.self w') = [Main.walk; Main.stop]
      /\ SequenceElement.store w' Main.stop = Main.objects 4%float Main.stop
  | None => False
  end.
Proof.
  destruct (SequenceElement.tick SenseInfo_default
              (started Services_default [Main.walk; Main.stop]
                       (Main.objects 4%float)))
    as [[o w']|] eqn:E; [|vm_compute in E; discriminate].
  destruct (@tick_touches_only_the_active_child Main.Leaf _ SenseInfo_default
              (started Services_default [Main.walk; Main.stop]
              (Main.objects 4%float)) 0 o w' eq_refl (Nat.le_0_l _) E)
    as (_ & Hel & _ & _ & Hst).
  split; [exact Hel|]. apply Hst. discriminate.
Defined.

Lemma tick_reports_the_active_child_witness :
  match SequenceElement.tick SenseInfo_default
          (started Services_default [Main.walk; Main.stop] (Main.objects 4%float))
  with
  | Some (o, w') =>
      exists o1,
        actuate o = actuate o1
        /\ value o = match value o1 with Success => Running | v => v end
  | None => False
  end.
Proof.
  destruct (SequenceElement.tick SenseInfo_default
              (started Services_default [Main.walk; Main.stop]
                       (Main.objects 4%float)))
    as [[o w']|] eqn:E; [|vm_compute in E; discriminate].
  destruct (@tick_reports_the_active_child Main.Leaf _ SenseInfo_default
              (started Services_default [Main.walk; Main.stop]
              (Main.objects 4%float)) 0 o w' eq_refl (Nat.lt_0_succ _) E)
    as (o1 & tr & _ & _ & Ha & Hv).
  exists o1. split; [exact Ha|exact Hv].
Defined.

Lemma sequence_fails_with_its_last_child_witness :
  exists outs w',
    SequenceElement.ticks
      ([mkSenseInfo 0 0 false false 0]
       ++ [mkSenseInfo 0 0 false false 1;
           mkSenseInfo 1 0.1 false false 61000000000] ++ [])
      (started Services_default [Main.stop; Main.walk] (Main.objects 4%float))
    = Some (outs, w')
    /\ ends_with Fail outs = true
    /\ SequenceElement.m_iter (SequenceElement.self w') = SequenceElement.At 2.
Proof.
  edestruct (@sequence_fails_with_its_last_child Main.Leaf _ Services_default
               [Main.stop; Main.walk]
               [[mkSenseInfo 0 0 false false 0];
                [mkSenseInfo 0 0 false false 1;
                 mkSenseInfo 1 0.1 false false 61000000000]]
               (Main.objects 4%float))
    as (outs & w' & E & Hend & _ & _ & _ & Hit).
  - reflexivity.
  - reflexivity.
  - exists outs, w'. repeat split; assumption.
Defined.

Lemma singleton_sequence_is_transparent_witness :
  exists w',
    SequenceElement.ticks
      [mkSenseInfo 0 0 false false 0; mkSenseInfo 1 3.95 false false 1]
      (started Services_default [Main.walk] (Main.objects 4%float))
    = Some ([mkOutcome Running (mkActuateCmd 1%float);
             mkOutcome Success (mkActuateCmd 1%float)], w').
Proof.
  edestruct (@singleton_sequence_is_transparent Main.Leaf _ Services_default
               Main.walk
               [mkSenseInfo 0 0 false false 0; mkSenseInfo 1 3.95 false false 1]
               (Main.objects 4%float))
    with (t := Success) as (w' & E & _).
  - reflexivity.
  - reflexivity.
  - discriminate.
  - exists w'. exact E.
Defined.

Lemma main_returns_on_every_clock_witness :
  exists g,
    Main.main every_100ms 42 = Executor.Returned g
    /\ Executor.readings g <= 43.
Proof.
  destruct (@main_returns_on_every_clock every_100ms 42 (Nat.le_refl _))
    as (g & E & Hk & _).
  exists g. split; assumption.
Defined.
